(** * whatsabi: the bytecode cursor and the ABI extractor of [src.ts/disasm.ts]

    A shallow embedding of [pushWidth], [isPush], [isLog], the class
    [BytecodeIter] and [abiFromBytecode], followed by the properties the
    specification states about them.

    Numbers are integers of [Z]: every number the code handles is a byte, a
    byte offset or a step count, all far below 2^53, where JavaScript's
    doubles are exact.  The one exception is the jump destination read by
    [parseInt] from a PUSH immediate of up to 32 bytes; it is kept exact
    here, which agrees with the double on every value that can be a byte
    offset of a [Uint8Array]. *)

From Stdlib Require Import ZArith Ascii String Lia ZifyBool.
From stdpp Require Import gmap strings list.

Local Open Scope Z_scope.

(** ** JavaScript values that reach the code

    [at] and [valueAt] index arrays without a bounds check, so an opcode can
    be [undefined] at run time, and arithmetic on it gives [NaN]. *)

Inductive jsval : Type :=
| VNum (n : Z)
| VNaN
| VUndefined.

#[global] Instance jsval_eq_dec : EqDecision jsval.
Proof. solve_decision. Defined.

(** [a < b] and [a > b]: both sides go through ToNumber, [undefined] becomes
    [NaN], and every comparison with [NaN] is false. *)
Definition js_lt (a b : jsval) : bool :=
  match a, b with VNum x, VNum y => x <? y | _, _ => false end.
Definition js_gt (a b : jsval) : bool :=
  match a, b with VNum x, VNum y => x >? y | _, _ => false end.
Definition js_ge (a b : jsval) : bool :=
  match a, b with VNum x, VNum y => x >=? y | _, _ => false end.
Definition js_le (a b : jsval) : bool :=
  match a, b with VNum x, VNum y => x <=? y | _, _ => false end.

(** [a === b] *)
Definition js_seq (a b : jsval) : bool :=
  match a, b with
  | VNum x, VNum y => x =? y
  | VUndefined, VUndefined => true
  | _, _ => false
  end.

(** [a + b] and [a - b] on numbers and [undefined] *)
Definition js_add (a b : jsval) : jsval :=
  match a, b with VNum x, VNum y => VNum (x + y) | _, _ => VNaN end.
Definition js_sub (a b : jsval) : jsval :=
  match a, b with VNum x, VNum y => VNum (x - y) | _, _ => VNaN end.

(** [!a] *)
Definition js_not (a : jsval) : bool :=
  match a with VNum n => n =? 0 | VNaN => true | VUndefined => true end.

(** [a[i]] on an array or a [Uint8Array]: [undefined] unless [i] is an index
    of the array. *)
Definition js_index (a : list Z) (i : jsval) : jsval :=
  match i with
  | VNum n =>
      if (0 <=? n) && (n <? Z.of_nat (length a))
      then match a !! Z.to_nat n with Some x => VNum x | None => VUndefined end
      else VUndefined
  | _ => VUndefined
  end.

(** ToIntegerOrInfinity on the values at hand *)
Definition js_to_integer (a : jsval) : Z :=
  match a with VNum n => n | _ => 0 end.

(** [a[p]] as a number, for a read that is in range ([byte_at_in]) *)
Definition byte_at (a : list Z) (p : Z) : Z := js_to_integer (js_index a (VNum p)).

(** [a.slice(start, end)] of a [Uint8Array]: negative bounds count from the
    end, both bounds are clamped to the array, an absent [end] is the
    length. *)
Definition js_slice (a : list Z) (start end_ : jsval) : list Z :=
  let len := Z.of_nat (length a) in
  let clamp r := if r <? 0 then Z.max (len + r) 0 else Z.min r len in
  let k := clamp (js_to_integer start) in
  let final := match end_ with VUndefined => len | _ => clamp (js_to_integer end_) end in
  take (Z.to_nat (final - k)) (drop (Z.to_nat k) a).

(** ** Results of code that can throw *)

Inductive exn : Type :=
| HexDataOddLength       (* arrayify: "hex data is odd-length" *)
| InvalidArrayifyValue   (* arrayify: "invalid arrayify value" *)
| ValueOutOfRange.       (* zeroPad:  "value out of range" *)

Inductive outcome (A : Type) : Type :=
| Return (a : A)
| Raise (e : exn)
| OutOfFuel.
Arguments Return {A} a.
Arguments Raise {A} e.
Arguments OutOfFuel {A}.

(** ** The helpers of ethers v5 that the code calls

    [ethers.utils.arrayify], [hexlify] and [zeroPad] are not code of this
    repository: they belong to its dependency ethers (version 5, package
    [@ethersproject/bytes]) and are written here after that package.  The
    specification states the same behaviour where it speaks of them: hex
    input with or without the [0x] prefix, a construction error on non-hex
    characters or odd length, lowercase hex output, zero padding on the left.
    It is silent on [zeroPad] of a value longer than the target, where the
    package throws "value out of range". *)

Module ethers.

Definition hex_digit (c : ascii) : option Z :=
  let n := Z.of_nat (nat_of_ascii c) in
  if (48 <=? n) && (n <=? 57) then Some (n - 48)         (* 0-9 *)
  else if (97 <=? n) && (n <=? 102) then Some (n - 87)   (* a-f *)
  else if (65 <=? n) && (n <=? 70) then Some (n - 55)    (* A-F *)
  else None.

(** the part of [/^0x[0-9A-Fa-f]*$/] after the prefix *)
Fixpoint all_hex (s : string) : bool :=
  match s with
  | EmptyString => true
  | String c r => match hex_digit c with Some _ => all_hex r | None => false end
  end.

Definition isHexString (value : string) : bool :=
  match value with
  | String "0" (String "x" r) => all_hex r
  | _ => false
  end.

(** [parseInt(hex.substring(i, i + 2), 16)] for every even [i]; both
    characters are hex digits, [isHexString] having held. *)
Fixpoint hex_pairs (hex : string) : list Z :=
  match hex with
  | String h (String l r) =>
      match hex_digit h, hex_digit l with
      | Some x, Some y => (16 * x + y) :: hex_pairs r
      | _, _ => hex_pairs r
      end
  | _ => []
  end.

(** [arrayify(value, { allowMissingPrefix: true })] on a string *)
Definition arrayify (value : string) : outcome (list Z) :=
  let value :=
    if String.eqb (substring 0 2 value) "0x" then value else ("0x" ++ value)%string in
  if isHexString value then
    let hex := substring 2 (String.length value - 2) value in
    if Nat.odd (String.length hex) then Raise HexDataOddLength
    else Return (hex_pairs hex)
  else Raise InvalidArrayifyValue.

Definition HexCharacters : string := "0123456789abcdef".

Definition hex_char (i : Z) : ascii :=
  match String.get (Z.to_nat i) HexCharacters with Some c => c | None => "0"%char end.

Fixpoint hexlify_bytes (value : list Z) : string :=
  match value with
  | [] => EmptyString
  | v :: r =>
      String (hex_char (Z.shiftr (Z.land v 0xf0) 4))
        (String (hex_char (Z.land v 0x0f)) (hexlify_bytes r))
  end.

(** [hexlify(value)] on a [Uint8Array] *)
Definition hexlify (value : list Z) : string :=
  String "0" (String "x" (hexlify_bytes value)).

(** [zeroPad(value, length)]: throws when [value] is longer than
    [length], else copies it to the right end of a zeroed array. *)
Definition zeroPad (value : list Z) (length : nat) : outcome (list Z) :=
  if (length <? List.length value)%nat then Raise ValueOutOfRange
  else Return (replicate (length - List.length value) 0 ++ value).

End ethers.

(** [parseInt(s, 16)] on a string without leading blanks or sign (its
    argument is always an output of [hexlify]): an optional [0x] or [0X],
    then the longest run of hex digits; [NaN] when that run is empty. *)
Fixpoint parse_hex_run (acc : option Z) (s : string) : option Z :=
  match s with
  | EmptyString => acc
  | String c r =>
      match ethers.hex_digit c with
      | Some d => parse_hex_run (Some (16 * default 0 acc + d)) r
      | None => acc
      end
  end.

Definition parseInt16 (s : string) : jsval :=
  let digits :=
    match s with
    | String "0" (String "x" r) => r
    | String "0" (String "X" r) => r
    | _ => s
    end in
  match parse_hex_run None digits with Some n => VNum n | None => VNaN end.

(** ** OpcodeTable *)

Module opcodes.
Definition STOP : Z := 0x00.
Definition EQ : Z := 0x14.
Definition ISZERO : Z := 0x15.
Definition CALLVALUE : Z := 0x34.
Definition JUMPI : Z := 0x57.
Definition JUMPDEST : Z := 0x5b.
Definition PUSH1 : Z := 0x60.
Definition PUSH4 : Z := 0x63.
Definition PUSH32 : Z := 0x7f.
Definition DUP1 : Z := 0x80.
Definition LOG1 : Z := 0xa1.
Definition LOG4 : Z := 0xa4.
End opcodes.

(** The three predicates on a number, as their signatures declare them. *)
Definition pushWidth (instruction : Z) : Z :=
  if (instruction <? opcodes.PUSH1) || (instruction >? opcodes.PUSH32) then 0
  else instruction - opcodes.PUSH1 + 1.

Definition isPush (instruction : Z) : bool :=
  negb ((instruction <? opcodes.PUSH1) || (instruction >? opcodes.PUSH32)).

Definition isLog (instruction : Z) : bool :=
  (instruction >=? opcodes.LOG1) && (instruction <=? opcodes.LOG4).

(** The same bodies as JavaScript runs them on whatever [at] hands back,
    [undefined] included. *)
Definition pushWidth_js (instruction : jsval) : jsval :=
  if js_lt instruction (VNum opcodes.PUSH1) || js_gt instruction (VNum opcodes.PUSH32)
  then VNum 0
  else js_add (js_sub instruction (VNum opcodes.PUSH1)) (VNum 1).

Definition isPush_js (instruction : jsval) : bool :=
  negb (js_lt instruction (VNum opcodes.PUSH1) || js_gt instruction (VNum opcodes.PUSH32)).

Definition isLog_js (instruction : jsval) : bool :=
  js_ge instruction (VNum opcodes.LOG1) && js_le instruction (VNum opcodes.LOG4).

(** ** BytecodeCursor: the class [BytecodeIter] *)

Record BytecodeIter : Type := mkBytecodeIter {
  bytecode : list Z;        (* Uint8Array *)
  nextStep : Z;             (* instruction count *)
  nextPos : Z;              (* byte-wise instruction position *)
  posBuffer : list Z;       (* buffer of positions *)
  posBufferSize : Z
}.

(** [new BytecodeIter(bytecode, { bufferSize })]; [config.bufferSize || 1]
    takes 1 for an absent or zero size. *)
Definition new_BytecodeIter (bytecode : string) (bufferSize : option Z)
  : outcome BytecodeIter :=
  let posBufferSize :=
    match bufferSize with
    | Some n => if n =? 0 then 1 else n
    | None => 1
    end in
  match ethers.arrayify bytecode with
  | Return bytes => Return (mkBytecodeIter bytes 0 0 [] posBufferSize)
  | Raise e => Raise e
  | OutOfFuel => OutOfFuel
  end.

Definition hasMore (this : BytecodeIter) : bool :=
  Z.of_nat (length this.(bytecode)) >? this.(nextPos).

(** [posBuffer.shift()] drops the oldest position. *)
Definition shift (a : list Z) : list Z := drop 1 a.

(** [next()]: the byte read is in range, thanks to the guard and to
    [nextPos] starting at 0 and only growing ([next_cursor_at]). *)
Definition next (this : BytecodeIter) : Z * BytecodeIter :=
  if Z.of_nat (length this.(bytecode)) <=? this.(nextPos) then (opcodes.STOP, this)
  else
    let instruction := byte_at this.(bytecode) this.(nextPos) in
    let width := pushWidth instruction in
    let posBuffer :=
      if Z.of_nat (length this.(posBuffer)) >=? this.(posBufferSize)
      then shift this.(posBuffer) else this.(posBuffer) in
    let posBuffer := posBuffer ++ [this.(nextPos)] in
    (instruction,
     mkBytecodeIter this.(bytecode) (this.(nextStep) + 1)
       (this.(nextPos) + (1 + width)) posBuffer this.(posBufferSize)).

Definition step (this : BytecodeIter) : Z := this.(nextStep) - 1.

Definition pos (this : BytecodeIter) : Z := this.(nextPos) - 1.

(** The position that [at] and [valueAt] resolve their argument to. *)
Definition resolve (this : BytecodeIter) (posOrRelativeStep : Z) : jsval :=
  if posOrRelativeStep <? 0
  then js_index this.(posBuffer)
         (VNum (Z.of_nat (length this.(posBuffer)) + posOrRelativeStep))
  else VNum posOrRelativeStep.

(** [at(posOrRelativeStep)] ([at] is a keyword of Rocq) *)
Definition at_ (this : BytecodeIter) (posOrRelativeStep : Z) : jsval :=
  let pos := resolve this posOrRelativeStep in
  js_index this.(bytecode) pos.

Definition valueAt (this : BytecodeIter) (posOrRelativeStep : Z) : list Z :=
  let pos := resolve this posOrRelativeStep in
  let instruction := js_index this.(bytecode) pos in
  let width := pushWidth_js instruction in
  js_slice this.(bytecode) (js_add pos (VNum 1)) (js_add (js_add pos (VNum 1)) width).

Definition value (this : BytecodeIter) : list Z := valueAt this (-1).

(** ** ABIModel *)

Inductive ABIEntry : Type :=
| ABIFunction (selector : string) (payable : bool)
| ABIEvent (hash : string).

#[global] Instance ABIEntry_eq_dec : EqDecision ABIEntry.
Proof. solve_decision. Defined.

Definition ABI : Type := list ABIEntry.

(** ** ABIExtractor: [abiFromBytecode] *)

(** [jumps] is an object with selector strings as keys: [Object.keys] lists
    them in the order they were first written (no selector looks like an
    array index), and writing an existing key keeps its place. *)
Fixpoint obj_set (k : string) (v : jsval) (o : list (string * jsval))
  : list (string * jsval) :=
  match o with
  | [] => [(k, v)]
  | (k', v') :: r => if String.eqb k k' then (k, v) :: r else (k', v') :: obj_set k v r
  end.

Fixpoint obj_get (k : string) (o : list (string * jsval)) : jsval :=
  match o with
  | [] => VUndefined
  | (k', v') :: r => if String.eqb k k' then v' else obj_get k r
  end.

(** [dests] and [notPayable] are objects with byte offsets as keys. *)
Definition num_get (m : gmap Z Z) (k : jsval) : jsval :=
  match k with
  | VNum n => match m !! n with Some v => VNum v | None => VUndefined end
  | _ => VUndefined
  end.

(** The variables of [abiFromBytecode] that the loop updates. *)
Record scan : Type := mkScan {
  abi : ABI;
  jumps : list (string * jsval);   (* function hash -> instruction offset *)
  dests : gmap Z Z;                (* instruction offset -> bytes offset *)
  notPayable : gmap Z Z;           (* instruction offset -> bytes offset *)
  lastPush32 : list Z;
  code : BytecodeIter
}.

Definition scan_start (code : BytecodeIter) : scan :=
  mkScan [] [] ∅ ∅ [] code.

(** One turn of the [while] loop, entered with [code.hasMore()]. *)
Definition scan_body (s : scan) : outcome scan :=
  let '(inst, code) := next s.(code) in
  let pos := pos code in
  let step := step code in
  if inst =? opcodes.PUSH32 then
    Return (mkScan s.(abi) s.(jumps) s.(dests) s.(notPayable) (value code) code)
  else if isLog inst && (0 <? Z.of_nat (length s.(lastPush32))) then
    Return (mkScan (s.(abi) ++ [ABIEvent (ethers.hexlify s.(lastPush32))])
              s.(jumps) s.(dests) s.(notPayable) s.(lastPush32) code)
  else if inst =? opcodes.JUMPDEST then
    let dests := <[pos := step]> s.(dests) in
    let notPayable :=
      if js_seq (at_ code (pos + 1)) (VNum opcodes.CALLVALUE) &&
         js_seq (at_ code (pos + 2)) (VNum opcodes.DUP1) &&
         js_seq (at_ code (pos + 3)) (VNum opcodes.ISZERO)
      then <[pos := step]> s.(notPayable) else s.(notPayable) in
    Return (mkScan s.(abi) s.(jumps) dests notPayable s.(lastPush32) code)
  else if js_seq (at_ code (-1)) (VNum opcodes.JUMPI) &&
          isPush_js (at_ code (-2)) &&
          js_seq (at_ code (-3)) (VNum opcodes.EQ) &&
          isPush_js (at_ code (-4))
  then
    match ethers.zeroPad (valueAt code (-4)) 4 with
    | Return value =>
        let selector := ethers.hexlify value in
        let offsetDest := parseInt16 (ethers.hexlify (valueAt code (-2))) in
        Return (mkScan s.(abi) (obj_set selector offsetDest s.(jumps))
                  s.(dests) s.(notPayable) s.(lastPush32) code)
    | Raise e => Raise e
    | OutOfFuel => OutOfFuel
    end
  else
    Return (mkScan s.(abi) s.(jumps) s.(dests) s.(notPayable) s.(lastPush32) code).

(** The [while (code.hasMore())] loop; every turn moves [nextPos] forward,
    so the length of the bytecode is enough fuel ([scan_loop_fuel]). *)
Fixpoint scan_loop (fuel : nat) (s : scan) : outcome scan :=
  if hasMore s.(code) then
    match fuel with
    | O => OutOfFuel
    | S fuel =>
        match scan_body s with
        | Return s => scan_loop fuel s
        | Raise e => Raise e
        | OutOfFuel => OutOfFuel
        end
    end
  else Return s.

(** The closing [for] loop over [Object.keys(jumps)]. *)
Definition functions_of (s : scan) : ABI :=
  map (fun selector =>
         ABIFunction selector (js_not (num_get s.(notPayable) (obj_get selector s.(jumps)))))
      (map fst s.(jumps)).

(** The whole loop, from a fresh cursor. *)
Definition scan_all (code : BytecodeIter) : outcome scan :=
  scan_loop (length code.(bytecode)) (scan_start code).

(** What is returned once the loop is over. *)
Definition abi_of_scan (r : outcome scan) : outcome ABI :=
  match r with
  | Return s => Return (s.(abi) ++ functions_of s)
  | Raise e => Raise e
  | OutOfFuel => OutOfFuel
  end.

Definition abiFromBytecode (bytecode : string) : outcome ABI :=
  match new_BytecodeIter bytecode (Some 4) with
  | Return code => abi_of_scan (scan_all code)
  | Raise e => Raise e
  | OutOfFuel => OutOfFuel
  end.

(** ** The decoding the specification describes

    Step [i] starts at the byte offset that is the sum, over the steps
    before it, of one opcode byte plus the width of the immediate. *)

Fixpoint instr_start (b : list Z) (i : nat) : Z :=
  match i with
  | O => 0
  | S j => instr_start b j + (1 + pushWidth (byte_at b (instr_start b j)))
  end.

Definition instr_op (b : list Z) (i : nat) : Z := byte_at b (instr_start b i).

(** Step [i] is reached when its start byte lies in the bytecode. *)
Definition reached (b : list Z) (i : nat) : Prop :=
  instr_start b i < Z.of_nat (length b).

(** [m] successive calls of [next()], with the opcodes they return. *)
Fixpoint run_next (m : nat) (c : BytecodeIter) : list Z * BytecodeIter :=
  match m with
  | O => ([], c)
  | S m' =>
      let '(ops, c') := run_next m' c in
      let '(op, c'') := next c' in
      (ops ++ [op], c'')
  end.

(** A cursor on given bytes, as the constructor leaves it. *)
Definition cursor_on (b : list Z) (K : Z) : BytecodeIter := mkBytecodeIter b 0 0 [] K.

(** The positions the ring holds after [m] decoded steps: those of the last
    [min m K] steps, oldest first. *)
Definition ring_of (b : list Z) (K : Z) (m : nat) : list Z :=
  map (instr_start b) (seq (m - Nat.min m (Z.to_nat K)) (Nat.min m (Z.to_nat K))).

(** The cursor after [m] decoded steps ([run_next_state]). *)
Definition cursor_at (b : list Z) (K : Z) (m : nat) : BytecodeIter :=
  mkBytecodeIter b (Z.of_nat m) (instr_start b m) (ring_of b K m) K.

(** The states the loop of [abiFromBytecode] passes through on bytes [b]. *)
Inductive scanned (b : list Z) : scan -> Prop :=
| scanned_start : scanned b (scan_start (cursor_on b 4))
| scanned_turn (s s' : scan) :
    scanned b s -> hasMore s.(code) = true -> scan_body s = Return s' -> scanned b s'.

(** [abiFromBytecode] past the constructor, on the bytes it read. *)
Definition abiFromBytes (b : list Z) : outcome ABI :=
  abi_of_scan (scan_all (cursor_on b 4)).

(** Shapes of the hex strings of the output. *)
Definition is_lower_hex (c : ascii) : bool :=
  let n := Z.of_nat (nat_of_ascii c) in
  ((48 <=? n) && (n <=? 57)) || ((97 <=? n) && (n <=? 102)).

Fixpoint string_forall (p : ascii -> bool) (s : string) : bool :=
  match s with
  | EmptyString => true
  | String c r => p c && string_forall p r
  end.

(** [0x] followed by [2 * n] lowercase hex digits *)
Definition hex_of_bytes (n : nat) (s : string) : Prop :=
  exists digits,
    s = String "0" (String "x" digits) /\
    String.length digits = (2 * n)%nat /\
    string_forall is_lower_hex digits = true.

(** [sel] renders the immediate [imm], zero-padded on the left to 4 bytes. *)
Definition padded_selector (imm : list Z) (sel : string) : Prop :=
  (length imm <= 4)%nat /\
  sel = ethers.hexlify (replicate (4 - length imm) 0 ++ imm).

(** What the loop keeps true of its variables on bytes [b]. *)
Record scan_inv (b : list Z) (s : scan) : Prop := mkScanInv {
  inv_cursor :
    exists m, (forall i, (i < m)%nat -> reached b i) /\ s.(code) = cursor_at b 4 m;
  inv_dests :
    forall k v, s.(dests) !! k = Some v ->
      exists i, reached b i /\ k = instr_start b i /\ v = Z.of_nat i /\
                instr_op b i = opcodes.JUMPDEST;
  inv_notPayable :
    forall k v, s.(notPayable) !! k = Some v ->
      s.(dests) !! k = Some v /\
      js_index b (VNum (k + 1)) = VNum opcodes.CALLVALUE /\
      js_index b (VNum (k + 2)) = VNum opcodes.DUP1 /\
      js_index b (VNum (k + 3)) = VNum opcodes.ISZERO;
  inv_guards :
    forall m i, s.(code) = cursor_at b 4 m -> (i < m)%nat ->
      instr_op b i = opcodes.JUMPDEST ->
      js_index b (VNum (instr_start b i + 1)) = VNum opcodes.CALLVALUE ->
      js_index b (VNum (instr_start b i + 2)) = VNum opcodes.DUP1 ->
      js_index b (VNum (instr_start b i + 3)) = VNum opcodes.ISZERO ->
      s.(notPayable) !! instr_start b i = Some (Z.of_nat i);
  inv_lastPush32 :
    hasMore s.(code) = true -> s.(lastPush32) = [] \/ length s.(lastPush32) = 32%nat;
  inv_abi :
    forall e, e ∈ s.(abi) -> exists t, length t = 32%nat /\ e = ABIEvent (ethers.hexlify t);
  inv_jumps :
    forall sel d, (sel, d) ∈ s.(jumps) ->
      exists m, reached b m /\
                padded_selector (valueAt (cursor_at b 4 (S m)) (-4)) sel
}.

(** ** What the entries of the output come from *)

(** The operand bytes of step [i]: what follows its opcode, as many bytes as
    its width, or fewer at a truncated tail. *)
Definition immediate (b : list Z) (i : nat) : list Z :=
  js_slice b (VNum (instr_start b i + 1))
    (VNum (instr_start b i + 1 + pushWidth (instr_op b i))).

Definition is_event (e : ABIEntry) : bool :=
  match e with ABIEvent _ => true | ABIFunction _ _ => false end.

Definition is_function (e : ABIEntry) : bool :=
  match e with ABIFunction _ _ => true | ABIEvent _ => false end.

(** The selectors of the function entries, in order. *)
Definition selectors (out : ABI) : list string :=
  omap (fun e => match e with ABIFunction sel _ => Some sel | ABIEvent _ => None end) out.

(** Steps [j - 2], [j - 1], [j] are EQ, a PUSH and JUMPI, and [dest] is what
    [parseInt] reads from the hex of that PUSH's operand. *)
Definition dispatch_at (b : list Z) (j : nat) (dest : jsval) : Prop :=
  reached b j /\ (2 <= j)%nat /\
  instr_op b j = opcodes.JUMPI /\
  isPush (instr_op b (j - 1)) = true /\
  instr_op b (j - 2) = opcodes.EQ /\
  ((3 <= j)%nat -> isPush (instr_op b (j - 3)) = true) /\
  dest = parseInt16 (ethers.hexlify (immediate b (j - 1))).

(** Step [i] is the last PUSH32 before step [m], and all its 32 operand bytes
    are there. *)
Definition last_push32 (b : list Z) (m i : nat) : Prop :=
  (i < m)%nat /\ instr_op b i = opcodes.PUSH32 /\
  (forall k, (i < k < m)%nat -> instr_op b k <> opcodes.PUSH32).

(** Where the variables of the loop come from, on bytes [b] after [m] steps. *)
Record scan_trace (b : list Z) (m : nat) (s : scan) : Prop := mkScanTrace {
  tr_lastPush32 :
    s.(lastPush32) = [] \/
    exists i, last_push32 b m i /\ s.(lastPush32) = immediate b i;
  tr_abi :
    forall e, e ∈ s.(abi) ->
      exists i j, (j < m)%nat /\ last_push32 b j i /\ isLog (instr_op b j) = true /\
                  length (immediate b i) = 32%nat /\
                  e = ABIEvent (ethers.hexlify (immediate b i));
  tr_jumps :
    forall sel d, (sel, d) ∈ s.(jumps) ->
      exists j, (j < m)%nat /\ dispatch_at b j d /\
                padded_selector (valueAt (cursor_at b 4 (S j)) (-4)) sel;
  tr_keys : NoDup (map fst s.(jumps));
  tr_count : (length s.(abi) + length s.(jumps) <= m)%nat
}.

(** The entry [sel -> d] of [jumps] after [m] steps was written at step [j],
    and no later step before [m] wrote [sel] again: [jumps[selector] = ...]
    overwrites. *)
Definition latest_dispatch (b : list Z) (m : nat) (sel : string) (d : jsval) (j : nat) : Prop :=
  (j < m)%nat /\ dispatch_at b j d /\
  padded_selector (valueAt (cursor_at b 4 (S j)) (-4)) sel /\
  forall j' d', (j < j' < m)%nat -> dispatch_at b j' d' ->
    ~ padded_selector (valueAt (cursor_at b 4 (S j')) (-4)) sel.

(** ** A dispatch table

    The entry the compiler emits for a function, as the comment in
    [abiFromBytecode] shows it: [DUP1 PUSH4 <selector> EQ PUSH1 <dest> JUMPI]. *)
Definition dispatch_entry (e : list Z * Z) : list Z :=
  [opcodes.DUP1; opcodes.PUSH4] ++ e.1 ++ [opcodes.EQ; opcodes.PUSH1; e.2; opcodes.JUMPI].

Definition dispatch_table (es : list (list Z * Z)) : list Z :=
  concat (map dispatch_entry es).

(** A selector of four bytes and a destination of one. *)
Definition entry_ok (e : list Z * Z) : Prop :=
  length e.1 = 4%nat /\ Forall (fun z => 0 <= z < 256) e.1 /\ 0 <= e.2 < 256.

(** [jumps] after the entries [es] were matched in order. *)
Definition jumps_of (es : list (list Z * Z)) : list (string * jsval) :=
  foldl (fun o e => obj_set (ethers.hexlify e.1) (parseInt16 (ethers.hexlify [e.2])) o) [] es.

(** The big-endian integer of a byte string. *)
Definition big_endian (v : list Z) : Z := foldl (fun acc x => 256 * acc + x) 0 v.

(** * The loaders of [src/loaders.ts] that combine other loaders

    [MultiABILoader] and [MultiSignatureLookup] ask a list of providers in
    turn.  A provider is known by its interface only; a call of one of its
    methods is awaited at once, so it is a function from the argument to the
    way the promise settles.  What a provider throws is a value of a type [E]
    with the two properties the code reads, [err.message] and [err.status]. *)

Module loaders.

Inductive awaited (E A : Type) : Type :=
| Fulfilled (a : A)
| Rejected (e : E).
Arguments Fulfilled {E A} a.
Arguments Rejected {E A} e.

Section providers.
Context {E : Type} (message : E -> string) (status : E -> jsval).
Context {Item : Type}.   (* an entry of an ABI: [any] *)

Record ContractResult : Type := mkContractResult {
  abi : list Item;
  name : option string;
  evmVersion : string;
  compilerVersion : string;
  runs : Z;
  ok : bool                (* False if no result is found *)
}.

Definition emptyContractResult : ContractResult :=
  {| ok := false; abi := []; name := None; evmVersion := ""; compilerVersion := ""; runs := 0 |}.

(** [interface ABILoader] *)
Record ABILoader : Type := mkABILoader {
  loadABI : string -> awaited E (list Item);
  getContract : string -> awaited E ContractResult
}.

(** Modelled from the spec: [errors.LoaderError], of [errors.js], which is
    not among the sources; the specification has it carry the context it is
    given (here the loader and the address) and the underlying cause.
    [MultiABILoaderError] extends it with nothing. *)
Record MultiABILoaderError : Type := mkMultiABILoaderError {
  error_message : string;
  context_loader : ABILoader;
  context_address : string;
  cause : E
}.

Record MultiABILoader : Type := mkMultiABILoader { loaders : list ABILoader }.

(** The [for] loop of [MultiABILoader.getContract]; [r] is an object, so
    [r && r.abi.length > 0] is the test of the length. *)
Fixpoint getContract_from (loaders : list ABILoader) (address : string)
  : awaited MultiABILoaderError ContractResult :=
  match loaders with
  | [] => Fulfilled emptyContractResult
  | loader :: rest =>
      match loader.(getContract) address with
      | Fulfilled r =>
          if (0 <? length r.(abi))%nat then Fulfilled r else getContract_from rest address
      | Rejected err =>
          if js_seq (status err) (VNum 404) then getContract_from rest address
          else Rejected
                 (mkMultiABILoaderError
                    ("MultiABILoader getContract error: " +:+ message err)
                    loader address err)
      end
  end.

Definition MultiABILoader_getContract (this : MultiABILoader) (address : string)
  : awaited MultiABILoaderError ContractResult :=
  getContract_from this.(loaders) address.

(** The [for] loop of [MultiABILoader.loadABI] *)
Fixpoint loadABI_from (loaders : list ABILoader) (address : string)
  : awaited MultiABILoaderError (list Item) :=
  match loaders with
  | [] => Fulfilled []
  | loader :: rest =>
      match loader.(loadABI) address with
      | Fulfilled r =>
          if (0 <? length r)%nat then Fulfilled r else loadABI_from rest address
      | Rejected err =>
          Rejected
            (mkMultiABILoaderError
               ("MultiABILoader loadABI error: " +:+ message err)
               loader address err)
      end
  end.

Definition MultiABILoader_loadABI (this : MultiABILoader) (address : string)
  : awaited MultiABILoaderError (list Item) :=
  loadABI_from this.(loaders) address.

(** [interface SignatureLookup] *)
Record SignatureLookup : Type := mkSignatureLookup {
  loadFunctions : string -> awaited E (list string);
  loadEvents : string -> awaited E (list string)
}.

Record MultiSignatureLookup : Type := mkMultiSignatureLookup {
  lookups : list SignatureLookup
}.

(** The [for] loop of [MultiSignatureLookup.loadFunctions]; what a lookup
    throws is not caught. *)
Fixpoint loadFunctions_from (lookups : list SignatureLookup) (selector : string)
  : awaited E (list string) :=
  match lookups with
  | [] => Fulfilled []
  | lookup :: rest =>
      match lookup.(loadFunctions) selector with
      | Fulfilled r =>
          if (0 <? length r)%nat then Fulfilled r else loadFunctions_from rest selector
      | Rejected err => Rejected err
      end
  end.

Definition MultiSignatureLookup_loadFunctions (this : MultiSignatureLookup)
  (selector : string) : awaited E (list string) :=
  loadFunctions_from this.(lookups) selector.

(** The [for] loop of [MultiSignatureLookup.loadEvents] *)
Fixpoint loadEvents_from (lookups : list SignatureLookup) (hash : string)
  : awaited E (list string) :=
  match lookups with
  | [] => Fulfilled []
  | lookup :: rest =>
      match lookup.(loadEvents) hash with
      | Fulfilled r =>
          if (0 <? length r)%nat then Fulfilled r else loadEvents_from rest hash
      | Rejected err => Rejected err
      end
  end.

Definition MultiSignatureLookup_loadEvents (this : MultiSignatureLookup)
  (hash : string) : awaited E (list string) :=
  loadEvents_from this.(lookups) hash.

(** [MultiSignatureLookup implements SignatureLookup]: it can stand where a
    lookup is asked for, in another [MultiSignatureLookup] for one. *)
Definition as_lookup (this : MultiSignatureLookup) : SignatureLookup :=
  mkSignatureLookup (MultiSignatureLookup_loadFunctions this)
                    (MultiSignatureLookup_loadEvents this).

(** A loader that [MultiABILoader.getContract] passes over: it found a
    contract without ABI entries, or failed with status 404. *)
Definition passed_over (address : string) (loader : ABILoader) : Prop :=
  (exists r, loader.(getContract) address = Fulfilled r /\ r.(abi) = []) \/
  (exists err, loader.(getContract) address = Rejected err /\ status err = VNum 404).

End providers.

End loaders.

(** * Properties *)

(** ** OpcodeTable *)

Lemma pushWidth_range z : 0 <= pushWidth z <= 32.
Proof.
  unfold pushWidth, opcodes.PUSH1, opcodes.PUSH32.
  destruct (z <? 96) eqn:H1; destruct (z >? 127) eqn:H2; simpl; lia.
Qed.

Lemma pushWidth_js_num z : pushWidth_js (VNum z) = VNum (pushWidth z).
Proof. unfold pushWidth_js, pushWidth. simpl. destruct (_ || _); reflexivity. Qed.

Lemma isPush_js_num z : isPush_js (VNum z) = isPush z.
Proof. reflexivity. Qed.

(** ** Array reads *)

Lemma js_index_in (a : list Z) (n : Z) :
  0 <= n < Z.of_nat (length a) -> exists x, a !! Z.to_nat n = Some x /\ js_index a (VNum n) = VNum x.
Proof.
  intros H. unfold js_index.
  replace ((0 <=? n) && (n <? Z.of_nat (length a))) with true
    by (symmetry; apply andb_true_iff; split; lia).
  destruct (lookup_lt_is_Some_2 a (Z.to_nat n)) as [x Hx]; [lia|].
  exists x. by rewrite Hx.
Qed.

Lemma js_index_out (a : list Z) (n : Z) :
  n < 0 \/ Z.of_nat (length a) <= n -> js_index a (VNum n) = VUndefined.
Proof.
  intros H. unfold js_index.
  replace ((0 <=? n) && (n <? Z.of_nat (length a))) with false; [done|].
  symmetry. apply andb_false_iff. lia.
Qed.

Lemma js_slice_length (a : list Z) (s e : Z) :
  0 <= s <= e -> e <= Z.of_nat (length a) ->
  length (js_slice a (VNum s) (VNum e)) = Z.to_nat (e - s).
Proof.
  intros Hs He. unfold js_slice. simpl.
  replace (s <? 0) with false by lia. replace (e <? 0) with false by lia.
  rewrite length_take, length_drop. lia.
Qed.

Lemma js_slice_nan (a : list Z) : js_slice a VNaN VNaN = [].
Proof.
  unfold js_slice. cbn [js_to_integer]. replace (0 <? 0) with false by lia.
  replace (Z.to_nat (_ - _)) with 0%nat by lia. reflexivity.
Qed.

(** ** BytecodeCursor *)

Lemma next_more (c : BytecodeIter) :
  hasMore c = true ->
  next c =
    (byte_at c.(bytecode) c.(nextPos),
     mkBytecodeIter c.(bytecode) (c.(nextStep) + 1)
       (c.(nextPos) + (1 + pushWidth (byte_at c.(bytecode) c.(nextPos))))
       ((if Z.of_nat (length c.(posBuffer)) >=? c.(posBufferSize)
         then shift c.(posBuffer) else c.(posBuffer)) ++ [c.(nextPos)])
       c.(posBufferSize)).
Proof.
  unfold hasMore, next. intros H.
  replace (Z.of_nat (length (bytecode c)) <=? nextPos c) with false by lia.
  reflexivity.
Qed.

Lemma next_done (c : BytecodeIter) :
  hasMore c = false -> next c = (opcodes.STOP, c).
Proof.
  unfold hasMore, next. intros H.
  by replace (Z.of_nat (length (bytecode c)) <=? nextPos c) with true by lia.
Qed.

Lemma resolve_abs (c : BytecodeIter) (p : Z) : 0 <= p -> resolve c p = VNum p.
Proof. intros H. unfold resolve. by replace (p <? 0) with false by lia. Qed.

(** The cursor on bytes [b] with a ring of [K >= 1] positions, against the
    decoding of the specification. *)
Section cursor.
Context (b : list Z) (K : Z).

Lemma instr_start_nonneg i : 0 <= instr_start b i.
Proof. induction i; simpl; [lia|]. pose proof (pushWidth_range (byte_at b (instr_start b i))). lia. Qed.

Lemma instr_start_lt i : instr_start b i < instr_start b (S i).
Proof. simpl. pose proof (pushWidth_range (byte_at b (instr_start b i))). lia. Qed.

Lemma instr_start_mono i j : (i <= j)%nat -> instr_start b i <= instr_start b j.
Proof.
  induction 1; [lia|]. pose proof (instr_start_lt m). lia.
Qed.

Lemma instr_start_inj i j : instr_start b i = instr_start b j -> i = j.
Proof.
  intros H. destruct (Nat.lt_trichotomy i j) as [L|[E|L]]; [|done|].
  - pose proof (instr_start_mono (S i) j L). pose proof (instr_start_lt i). lia.
  - pose proof (instr_start_mono (S j) i L). pose proof (instr_start_lt j). lia.
Qed.

Lemma reached_le i j : (i <= j)%nat -> reached b j -> reached b i.
Proof. unfold reached. intros H. pose proof (instr_start_mono i j H). lia. Qed.

Lemma byte_at_in (p : Z) :
  0 <= p < Z.of_nat (length b) -> js_index b (VNum p) = VNum (byte_at b p).
Proof. intros H. unfold byte_at. destruct (js_index_in b p H) as (x & _ & ->). done. Qed.

Lemma ring_of_length m : length (ring_of b K m) = Nat.min m (Z.to_nat K).
Proof. unfold ring_of. by rewrite length_map, length_seq. Qed.

Lemma ring_of_succ m :
  1 <= K ->
  (if Z.of_nat (length (ring_of b K m)) >=? K then shift (ring_of b K m) else ring_of b K m)
    ++ [instr_start b m] = ring_of b K (S m).
Proof.
  intros HK. rewrite ring_of_length. unfold ring_of, shift.
  destruct (Z.of_nat (Nat.min m (Z.to_nat K)) >=? K) eqn:E.
  - assert (Hm : (Z.to_nat K <= m)%nat) by lia.
    rewrite !Nat.min_r by lia.
    destruct (Z.to_nat K) as [|k] eqn:EK; [lia|].
    simpl seq at 1. simpl map at 1. simpl drop.
    replace (S m - S k)%nat with (S (m - S k)) by lia.
    rewrite drop_0, seq_S, map_app. replace (S (m - S k) + k)%nat with m by lia. reflexivity.
  - assert (Hm : (m < Z.to_nat K)%nat) by lia.
    rewrite !Nat.min_l by lia.
    replace (m - m)%nat with 0%nat by lia. replace (S m - S m)%nat with 0%nat by lia.
    replace (S m) with (m + 1)%nat by lia.
    rewrite seq_app, map_app. reflexivity.
Qed.

Lemma run_next_state (m : nat) :
  1 <= K -> (forall i, (i < m)%nat -> reached b i) ->
  run_next m (cursor_on b K) = (map (instr_op b) (seq 0 m), cursor_at b K m).
Proof.
  intros HK. induction m as [|m IH]; intros Hr; [reflexivity|].
  simpl run_next. rewrite IH by (intros; apply Hr; lia).
  unfold cursor_at. rewrite next_more.
  2:{ unfold hasMore. simpl. specialize (Hr m ltac:(lia)). unfold reached in Hr. lia. }
  cbn [bytecode nextPos nextStep posBuffer posBufferSize].
  rewrite ring_of_succ by done.
  rewrite seq_S, map_app. cbn [map Nat.add].
  f_equal. f_equal. lia.
Qed.

Lemma hasMore_cursor_at m : hasMore (cursor_at b K m) = true <-> reached b m.
Proof. unfold hasMore, reached, cursor_at. simpl. lia. Qed.

(** Calls of [next()] past the end return STOP and leave the cursor alone. *)
Lemma run_next_past_end (m j : nat) :
  1 <= K -> (forall i, (i < m)%nat -> reached b i) -> ~ reached b m ->
  run_next (m + j) (cursor_on b K) =
    (map (instr_op b) (seq 0 m) ++ replicate j opcodes.STOP, cursor_at b K m).
Proof.
  intros HK Hr Hend. induction j as [|j IH].
  - rewrite Nat.add_0_r, app_nil_r. by apply run_next_state.
  - rewrite Nat.add_succ_r. simpl run_next. rewrite IH, next_done.
    + rewrite <- app_assoc. do 2 f_equal.
      change [opcodes.STOP] with (replicate 1 opcodes.STOP).
      rewrite <- replicate_add. f_equal. lia.
    + destruct (hasMore (cursor_at b K m)) eqn:E; [|done].
      by apply hasMore_cursor_at in E.
Qed.

Lemma next_cursor_at m :
  1 <= K -> reached b m -> next (cursor_at b K m) = (instr_op b m, cursor_at b K (S m)).
Proof.
  intros HK Hr. rewrite next_more by (by apply hasMore_cursor_at).
  unfold cursor_at. cbn [bytecode nextPos nextStep posBuffer posBufferSize].
  rewrite ring_of_succ by done. unfold instr_op. repeat f_equal. lia.
Qed.

Lemma resolve_ring (m : nat) (k : Z) :
  1 <= k <= Z.of_nat (Nat.min m (Z.to_nat K)) ->
  resolve (cursor_at b K m) (- k) = VNum (instr_start b (m - Z.to_nat k)).
Proof.
  intros Hk. unfold resolve, cursor_at. cbn [posBuffer].
  replace (- k <? 0) with true by lia.
  rewrite ring_of_length.
  destruct (js_index_in (ring_of b K m) (Z.of_nat (Nat.min m (Z.to_nat K)) + - k))
    as (x & Hx & ->); [rewrite ring_of_length; lia|].
  unfold ring_of in Hx. rewrite list_lookup_fmap in Hx.
  rewrite lookup_seq_lt in Hx by lia. simpl in Hx. injection Hx as <-.
  do 2 f_equal. lia.
Qed.

Lemma resolve_short (m : nat) (k : Z) :
  Z.of_nat (Nat.min m (Z.to_nat K)) < k ->
  resolve (cursor_at b K m) (- k) = VUndefined.
Proof.
  intros Hk. unfold resolve, cursor_at. cbn [posBuffer].
  replace (- k <? 0) with true by lia.
  rewrite ring_of_length. apply js_index_out. lia.
Qed.

Lemma valueAt_ring (m : nat) (k : Z) :
  (forall i, (i < m)%nat -> reached b i) ->
  1 <= k <= Z.of_nat (Nat.min m (Z.to_nat K)) ->
  valueAt (cursor_at b K m) (- k) =
    js_slice b (VNum (instr_start b (m - Z.to_nat k) + 1))
      (VNum (instr_start b (m - Z.to_nat k) + 1 + pushWidth (instr_op b (m - Z.to_nat k)))).
Proof.
  intros Hr Hk. unfold valueAt. rewrite resolve_ring by done.
  cbn [bytecode cursor_at]. rewrite byte_at_in.
  2:{ split; [apply instr_start_nonneg|]. apply Hr. lia. }
  rewrite pushWidth_js_num. reflexivity.
Qed.

(** Reading the ring: [at(-k)] is the opcode of the step decoded [k] steps
    ago, for every [k] the ring holds. *)
Lemma at_ring (m : nat) (k : Z) :
  (forall i, (i < m)%nat -> reached b i) ->
  1 <= k <= Z.of_nat (Nat.min m (Z.to_nat K)) ->
  at_ (cursor_at b K m) (- k) = VNum (instr_op b (m - Z.to_nat k)).
Proof.
  intros Hr Hk. unfold at_. rewrite resolve_ring by done.
  unfold instr_op. apply byte_at_in.
  split; [apply instr_start_nonneg|]. apply Hr. lia.
Qed.

End cursor.

(** ** ethers helpers *)

Lemma zeroPad_length (v : list Z) (n : nat) (r : list Z) :
  ethers.zeroPad v n = Return r -> length r = n /\ (length v <= n)%nat /\
  r = replicate (n - length v) 0 ++ v.
Proof.
  unfold ethers.zeroPad. destruct (n <? length v)%nat eqn:E; [discriminate|].
  intros [= <-]. rewrite length_app, length_replicate. split_and!; [lia|lia|done].
Qed.

Lemma hex_char_lower (i : Z) : is_lower_hex (ethers.hex_char i) = true.
Proof.
  unfold ethers.hex_char. generalize (Z.to_nat i). intros n.
  do 16 (destruct n as [|n]; [reflexivity|]). reflexivity.
Qed.

Lemma hexlify_bytes_shape (v : list Z) :
  String.length (ethers.hexlify_bytes v) = (2 * length v)%nat /\
  string_forall is_lower_hex (ethers.hexlify_bytes v) = true.
Proof.
  induction v as [|x v [IH1 IH2]]; [done|].
  cbn [ethers.hexlify_bytes String.length string_forall length].
  rewrite !hex_char_lower, IH1, IH2. split; [lia|done].
Qed.

Lemma hexlify_shape (v : list Z) : hex_of_bytes (length v) (ethers.hexlify v).
Proof.
  exists (ethers.hexlify_bytes v). split; [done|]. apply hexlify_bytes_shape.
Qed.

Lemma hex_of_bytes_length n s : hex_of_bytes n s -> String.length s = (2 + 2 * n)%nat.
Proof. intros (d & -> & H & _). simpl. lia. Qed.

(** ** The jumps object *)

Lemma obj_set_elem k v o k' v' :
  (k', v') ∈ obj_set k v o -> (k', v') = (k, v) \/ (k', v') ∈ o.
Proof.
  induction o as [|[k0 v0] o IH]; simpl.
  - intros H. apply list_elem_of_singleton in H. by left.
  - destruct (String.eqb k k0).
    + intros H. apply elem_of_cons in H as [H|H]; [by left|]. right. by right.
    + intros H. apply elem_of_cons in H as [H|H]; [right; rewrite H; by left|].
      destruct (IH H); [by left|]. right. by right.
Qed.

(** ** The loop of the extractor *)

Lemma scan_body_code s s' : scan_body s = Return s' -> s'.(code) = (next s.(code)).2.
Proof.
  unfold scan_body. destruct (next (code s)) as [inst c].
  repeat match goal with
         | |- context [if ?c then _ else _] => destruct c
         | |- context [match ethers.zeroPad ?v ?n with _ => _ end] =>
             destruct (ethers.zeroPad v n)
         end; try discriminate; by intros [= <-].
Qed.

Lemma scan_body_fuel s : scan_body s <> OutOfFuel.
Proof.
  unfold scan_body. destruct (next (code s)) as [inst c].
  repeat match goal with
         | |- context [if ?c then _ else _] => destruct c
         end; try discriminate.
  unfold ethers.zeroPad. by destruct (_ <? _)%nat.
Qed.

Lemma next_advances c :
  hasMore c = true ->
  (next c).2.(bytecode) = c.(bytecode) /\ c.(nextPos) < (next c).2.(nextPos).
Proof.
  intros H. rewrite next_more by done. simpl.
  pose proof (pushWidth_range (byte_at (bytecode c) (nextPos c))). split; [done|lia].
Qed.

(** The length of the bytecode is enough fuel: the loop always ends. *)
Lemma scan_loop_fuel (fuel : nat) (s : scan) :
  Z.of_nat (length s.(code).(bytecode)) - s.(code).(nextPos) <= Z.of_nat fuel ->
  scan_loop fuel s <> OutOfFuel.
Proof.
  revert s. induction fuel as [|fuel IH]; intros s Hf; simpl.
  - destruct (hasMore (code s)) eqn:E; [|done]. unfold hasMore in E. lia.
  - destruct (hasMore (code s)) eqn:E; [|done].
    destruct (scan_body s) as [s'| |] eqn:B; [|done|by apply scan_body_fuel in B].
    apply IH. apply scan_body_code in B. rewrite B.
    destruct (next_advances _ E) as [-> ?]. lia.
Qed.

Lemma scan_all_fuel (b : list Z) : scan_all (cursor_on b 4) <> OutOfFuel.
Proof. apply scan_loop_fuel. simpl. lia. Qed.

Lemma scan_loop_scanned (b : list Z) (fuel : nat) (s s' : scan) :
  scanned b s -> scan_loop fuel s = Return s' ->
  scanned b s' /\ hasMore s'.(code) = false.
Proof.
  revert s. induction fuel as [|fuel IH]; intros s Hs; simpl.
  - destruct (hasMore (code s)) eqn:E; [discriminate|]. by intros [= <-].
  - destruct (hasMore (code s)) eqn:E; [|by intros [= <-]].
    destruct (scan_body s) as [s1| |] eqn:B; try discriminate.
    apply IH. by eapply scanned_turn.
Qed.

Lemma js_seq_num (a : jsval) (n : Z) : js_seq a (VNum n) = true -> a = VNum n.
Proof. destruct a as [x| |]; simpl; try discriminate. intros H. f_equal. lia. Qed.

Lemma value_push32 (b : list Z) (m : nat) :
  (forall i, (i < S m)%nat -> reached b i) ->
  instr_op b m = opcodes.PUSH32 ->
  hasMore (cursor_at b 4 (S m)) = true ->
  length (value (cursor_at b 4 (S m))) = 32%nat.
Proof.
  intros Hr Hop Hm. unfold value. change (-1) with (- (1)).
  rewrite (valueAt_ring b 4 (S m) 1) by (done || lia).
  replace (S m - Z.to_nat 1)%nat with m by lia. rewrite Hop.
  apply hasMore_cursor_at in Hm. unfold reached in Hm. simpl in Hm.
  fold (instr_op b m) in Hm. rewrite Hop in Hm.
  pose proof (instr_start_nonneg b m).
  rewrite js_slice_length; change (pushWidth opcodes.PUSH32) with 32 in *; lia.
Qed.

Lemma cursor_at_inj b K m m' : cursor_at b K m = cursor_at b K m' -> m = m'.
Proof. unfold cursor_at. intros [= H _ _]. lia. Qed.

Lemma cursor_on_at b K : cursor_on b K = cursor_at b K 0.
Proof. reflexivity. Qed.

Lemma scan_start_inv (b : list Z) : scan_inv b (scan_start (cursor_on b 4)).
Proof.
  constructor; simpl.
  - exists 0%nat. split; [lia|done].
  - intros k v H. by rewrite lookup_empty in H.
  - intros k v H. by rewrite lookup_empty in H.
  - intros m i Hc Hi. rewrite cursor_on_at in Hc. apply cursor_at_inj in Hc. lia.
  - by left.
  - intros e H. by apply not_elem_of_nil in H.
  - intros sel d H. by apply not_elem_of_nil in H.
Qed.

(** The guard test of rule E3, read off the bytes. *)
Lemma guard_test (b : list Z) (c : BytecodeIter) (p : Z) :
  c.(bytecode) = b -> 0 <= p ->
  js_seq (at_ c (p + 1)) (VNum opcodes.CALLVALUE) &&
  js_seq (at_ c (p + 2)) (VNum opcodes.DUP1) &&
  js_seq (at_ c (p + 3)) (VNum opcodes.ISZERO) = true <->
  js_index b (VNum (p + 1)) = VNum opcodes.CALLVALUE /\
  js_index b (VNum (p + 2)) = VNum opcodes.DUP1 /\
  js_index b (VNum (p + 3)) = VNum opcodes.ISZERO.
Proof.
  intros <- Hp. unfold at_. rewrite !resolve_abs by lia. split.
  - intros G. apply andb_true_iff in G as [G G3]. apply andb_true_iff in G as [G1 G2].
    by apply js_seq_num in G1, G2, G3.
  - intros (-> & -> & ->). reflexivity.
Qed.

(** Close a branch of the loop body: name the new state and open the
    invariant on its fields. *)
Ltac scan_branch H :=
  injection H as <-; constructor; cbn [code dests notPayable lastPush32 abi jumps];
  try done.

Lemma scan_body_inv (b : list Z) (s s' : scan) :
  scan_inv b s -> hasMore s.(code) = true -> scan_body s = Return s' -> scan_inv b s'.
Proof.
  intros [(m & Hr & Hc) Hd Hn Hg Hl Ha Hj] Hm Hb.
  specialize (Hl Hm). rewrite Hc in Hm. apply hasMore_cursor_at in Hm.
  specialize (Hg m).
  assert (Hr' : forall i, (i < S m)%nat -> reached b i).
  { intros i Hi. apply (reached_le b i m); [lia|done]. }
  assert (Hcur : exists m', (forall i, (i < m')%nat -> reached b i) /\
                            cursor_at b 4 (S m) = cursor_at b 4 m') by (by exists (S m)).
  pose proof (instr_start_nonneg b m) as Hnn.
  (* the guarded JUMPDESTs decoded so far stay recorded *)
  assert (Hkeep : forall np : gmap Z Z,
            (forall k v, notPayable s !! k = Some v -> np !! k = Some v) ->
            (instr_op b m = opcodes.JUMPDEST ->
             js_index b (VNum (instr_start b m + 1)) = VNum opcodes.CALLVALUE ->
             js_index b (VNum (instr_start b m + 2)) = VNum opcodes.DUP1 ->
             js_index b (VNum (instr_start b m + 3)) = VNum opcodes.ISZERO ->
             np !! instr_start b m = Some (Z.of_nat m)) ->
            forall m' i, cursor_at b 4 (S m) = cursor_at b 4 m' -> (i < m')%nat ->
              instr_op b i = opcodes.JUMPDEST ->
              js_index b (VNum (instr_start b i + 1)) = VNum opcodes.CALLVALUE ->
              js_index b (VNum (instr_start b i + 2)) = VNum opcodes.DUP1 ->
              js_index b (VNum (instr_start b i + 3)) = VNum opcodes.ISZERO ->
              np !! instr_start b i = Some (Z.of_nat i)).
  { intros np Hmono Hnew m' i Hm' Hi Hop G1 G2 G3. apply cursor_at_inj in Hm'. subst m'.
    destruct (decide (i = m)) as [->|Hne]; [by apply Hnew|].
    apply Hmono. apply Hg; [done|lia|done..]. }
  unfold scan_body in Hb. rewrite Hc, next_cursor_at in Hb by (done || lia).
  destruct (instr_op b m =? opcodes.PUSH32) eqn:E1.
  { scan_branch Hb.
    - apply Hkeep; [done|]. intros Hop. rewrite Hop in E1. discriminate E1.
    - intros Hm'. right. apply value_push32; [done|lia|done]. }
  destruct (isLog (instr_op b m) && (0 <? Z.of_nat (length (lastPush32 s)))) eqn:E2.
  { scan_branch Hb.
    - apply Hkeep; [done|]. intros Hop. rewrite Hop in E2. discriminate E2.
    - intros e He. apply elem_of_app in He as [He|He]; [by apply Ha|].
      apply list_elem_of_singleton in He as ->.
      exists (lastPush32 s). split; [|done].
      destruct Hl as [Hl|Hl]; [|done]. rewrite Hl in E2. simpl in E2. lia. }
  destruct (instr_op b m =? opcodes.JUMPDEST) eqn:E3.
  { assert (Hop : instr_op b m = opcodes.JUMPDEST) by lia.
    assert (Hpos : pos (cursor_at b 4 (S m)) = instr_start b m).
    { unfold pos. simpl. fold (instr_op b m). rewrite Hop. change (pushWidth _) with 0. lia. }
    assert (Hstep : step (cursor_at b 4 (S m)) = Z.of_nat m) by (unfold step; simpl; lia).
    rewrite Hpos, Hstep in Hb.
    assert (Hdests : forall k v, <[instr_start b m := Z.of_nat m]> (dests s) !! k = Some v ->
              exists i, reached b i /\ k = instr_start b i /\ v = Z.of_nat i /\
                        instr_op b i = opcodes.JUMPDEST).
    { intros k v. rewrite lookup_insert. case_decide as Ek.
      - intros [= <-]. exists m. by subst k.
      - apply Hd. }
    assert (Hsame : forall k v, notPayable s !! k = Some v -> k = instr_start b m ->
              v = Z.of_nat m).
    { intros k v Hk ->. destruct (Hn _ _ Hk) as (Hdk & _).
      destruct (Hd _ _ Hdk) as (i & _ & Hki & -> & _).
      apply instr_start_inj in Hki. by subst i. }
    assert (Hold : forall k v, notPayable s !! k = Some v ->
              <[instr_start b m := Z.of_nat m]> (dests s) !! k = Some v).
    { intros k v Hk. destruct (Hn k v Hk) as (Hdk & _).
      rewrite lookup_insert. case_decide as Ek; [|done].
      f_equal. symmetry. by eapply Hsame. }
    pose proof (guard_test b (cursor_at b 4 (S m)) (instr_start b m) eq_refl Hnn) as Hgt.
    destruct (js_seq (at_ (cursor_at b 4 (S m)) (instr_start b m + 1)) (VNum opcodes.CALLVALUE) &&
              js_seq (at_ (cursor_at b 4 (S m)) (instr_start b m + 2)) (VNum opcodes.DUP1) &&
              js_seq (at_ (cursor_at b 4 (S m)) (instr_start b m + 3)) (VNum opcodes.ISZERO)) eqn:G;
      scan_branch Hb.
    - intros k v. rewrite lookup_insert. case_decide as Ek.
      + intros [= <-]. subst k. rewrite lookup_insert_eq. split; [done|]. by apply Hgt.
      + intros Hk. split; [by apply Hold|]. by apply (Hn k v).
    - apply Hkeep; [|intros; apply lookup_insert_eq].
      intros k v Hk. rewrite lookup_insert. case_decide as Ek; [|done].
      f_equal. symmetry. by eapply Hsame.
    - intros k v Hk. split; [by apply Hold|]. by apply (Hn k v).
    - apply Hkeep; [done|]. intros _ G1 G2 G3.
      assert (false = true) by (by apply Hgt). discriminate. }
  assert (Hnj : instr_op b m = opcodes.JUMPDEST -> False) by lia.
  destruct (js_seq (at_ (cursor_at b 4 (S m)) (-1)) (VNum opcodes.JUMPI) &&
            isPush_js (at_ (cursor_at b 4 (S m)) (-2)) &&
            js_seq (at_ (cursor_at b 4 (S m)) (-3)) (VNum opcodes.EQ) &&
            isPush_js (at_ (cursor_at b 4 (S m)) (-4))) eqn:E4.
  { destruct (ethers.zeroPad (valueAt (cursor_at b 4 (S m)) (-4)) 4) as [v| |] eqn:Z;
      try discriminate.
    scan_branch Hb.
    - apply Hkeep; [done|]. intros Hop. by destruct Hnj.
    - intros sel d H. apply obj_set_elem in H as [[= -> ->]|H]; [|by eapply Hj].
      exists m. split; [done|]. apply zeroPad_length in Z as (_ & ? & ->). by split. }
  scan_branch Hb.
  apply Hkeep; [done|]. intros Hop. by destruct Hnj.
Qed.

Lemma scanned_inv (b : list Z) (s : scan) : scanned b s -> scan_inv b s.
Proof.
  induction 1 as [|s s' _ IH Hm Hb]; [apply scan_start_inv|by eapply scan_body_inv].
Qed.

Lemma abiFromBytecode_bytes (input : string) :
  abiFromBytecode input =
    match ethers.arrayify input with
    | Return b => abiFromBytes b
    | Raise e => Raise e
    | OutOfFuel => OutOfFuel
    end.
Proof.
  unfold abiFromBytecode, new_BytecodeIter, abiFromBytes, abi_of_scan.
  destruct (ethers.arrayify input); reflexivity.
Qed.

(** What a normal return of the extractor is made of. *)
Lemma abiFromBytecode_return (input : string) (out : ABI) :
  abiFromBytecode input = Return out ->
  exists b s, ethers.arrayify input = Return b /\ scanned b s /\
              hasMore s.(code) = false /\ out = s.(abi) ++ functions_of s.
Proof.
  rewrite abiFromBytecode_bytes. destruct (ethers.arrayify input) as [b| |]; try discriminate.
  unfold abiFromBytes, scan_all. cbn [bytecode cursor_on].
  destruct (scan_loop (length b) (scan_start (cursor_on b 4))) as [s| |] eqn:L; try discriminate.
  intros [= <-]. exists b, s.
  destruct (scan_loop_scanned b _ _ _ (scanned_start b) L). done.
Qed.

(** The extractor always comes to an end. *)
Lemma abiFromBytecode_ends (input : string) : abiFromBytecode input <> OutOfFuel.
Proof.
  rewrite abiFromBytecode_bytes. destruct (ethers.arrayify input) as [b| |] eqn:A; try done.
  - unfold abiFromBytes. pose proof (scan_all_fuel b).
    by destruct (scan_all (cursor_on b 4)).
  - unfold ethers.arrayify in A.
    destruct (ethers.isHexString _) in A; [destruct (Nat.odd _) in A|]; discriminate.
Qed.

Lemma functions_of_elem (s : scan) (e : ABIEntry) :
  e ∈ functions_of s ->
  exists sel d, (sel, d) ∈ s.(jumps) /\
    e = ABIFunction sel (js_not (num_get s.(notPayable) (obj_get sel s.(jumps)))).
Proof.
  unfold functions_of. intros H.
  apply list_elem_of_fmap in H as (sel & -> & H).
  apply list_elem_of_fmap in H as ([sel' d] & -> & H). by exists sel', d.
Qed.

(** ** Claims about the cursor *)

(** C5. Ring correctness: for every bytecode and ring capacity [K >= 1], after
    [m] calls of [next()] that each decoded a step, the position ring holds
    the start bytes of the last [min m K] steps, oldest first, and for every
    [k] from 1 to [min m K], [at(-k)] is the opcode that the call [k] steps
    ago returned, whatever the widths of the PUSH instructions in between. *)
Theorem ring_correct (b : list Z) (K : Z) (m : nat) :
  1 <= K ->
  (forall i, (i < m)%nat -> reached b i) ->
  let ops := (run_next m (cursor_on b K)).1 in
  let c := (run_next m (cursor_on b K)).2 in
  c.(posBuffer) =
    map (instr_start b) (seq (m - Nat.min m (Z.to_nat K)) (Nat.min m (Z.to_nat K))) /\
  forall k : nat, (1 <= k <= Nat.min m (Z.to_nat K))%nat ->
    exists op, ops !! (m - k)%nat = Some op /\ at_ c (- Z.of_nat k) = VNum op.
Proof.
  intros HK Hr. rewrite run_next_state by done. cbn [fst snd]. split; [reflexivity|].
  intros k Hk. exists (instr_op b (m - k)). split.
  - rewrite list_lookup_fmap, lookup_seq_lt by lia. reflexivity.
  - rewrite at_ring by (done || lia). do 2 f_equal. lia.
Qed.

Lemma ring_correct_witness :
  let b := [0x80; 0x63; 0x2e; 0x64; 0xce; 0xc1; 0x14; 0x60; 0x37; 0x57; 0x00] in
  let c := (run_next 5 (cursor_on b 4)).2 in
  c.(posBuffer) = [1; 6; 7; 9] /\
  forall k : nat, (1 <= k <= 4)%nat ->
    exists op, (run_next 5 (cursor_on b 4)).1 !! (5 - k)%nat = Some op /\
               at_ c (- Z.of_nat k) = VNum op.
Proof.
  apply (ring_correct [0x80; 0x63; 0x2e; 0x64; 0xce; 0xc1; 0x14; 0x60; 0x37; 0x57; 0x00] 4 5).
  - lia.
  - intros i Hi. unfold reached.
    do 5 (destruct i as [|i]; [vm_compute; reflexivity|]). lia.
Defined.

(** C8, as the code has it. For every cursor and every byte position [p]
    with [p >= 0] and [p >= len(bytecode)], [at(p)] is [undefined]: it is no
    opcode at all, and comparing it with any opcode, STOP included, is
    false. *)
Theorem at_out_of_range (c : BytecodeIter) (p : Z) :
  0 <= p -> Z.of_nat (length c.(bytecode)) <= p ->
  at_ c p = VUndefined /\ forall op : Z, js_seq (at_ c p) (VNum op) = false.
Proof.
  intros H0 Hp. assert (E : at_ c p = VUndefined).
  { unfold at_. rewrite resolve_abs by done. apply js_index_out. lia. }
  rewrite E. done.
Qed.

Lemma at_out_of_range_witness :
  at_ (cursor_on [0x60; 0x01] 4) 2 = VUndefined /\
  forall op : Z, js_seq (at_ (cursor_on [0x60; 0x01] 4) 2) (VNum op) = false.
Proof. apply (at_out_of_range (cursor_on [0x60; 0x01] 4) 2); simpl; lia. Defined.

(** C8, as the specification states it, fails: [at(p)] past the end of the
    bytecode is not the opcode 0. *)
Lemma at_out_of_range_not_STOP :
  ~ (forall (c : BytecodeIter) (p : Z),
       0 <= p -> Z.of_nat (length c.(bytecode)) <= p -> at_ c p = VNum opcodes.STOP).
Proof.
  intros H. specialize (H (cursor_on [0x60; 0x01] 4) 2).
  simpl in H. specialize (H ltac:(lia) ltac:(lia)). discriminate H.
Qed.

(** [pos()] after a decoded step is the last byte of that step: its start
    byte plus the width of its immediate. *)
Lemma pos_after_next (b : list Z) (K : Z) (m : nat) :
  1 <= K -> reached b m ->
  pos (next (cursor_at b K m)).2 = instr_start b m + pushWidth (instr_op b m) /\
  step (next (cursor_at b K m)).2 = Z.of_nat m.
Proof.
  intros HK Hr. rewrite next_cursor_at by done. unfold pos, step, cursor_at. simpl.
  unfold instr_op. lia.
Qed.

(** C1, evaluated on the bytecode [60 01] (PUSH1 0x01): after the first
    [next()], which returns PUSH1, [step()] is the ordinal 0 of that step but
    [pos()] is 1, while the step begins at byte 0 (and the next one at byte
    2): [pos()] is the last byte of the immediate. *)
Theorem pos_after_push1 :
  let c := cursor_on [0x60; 0x01] 4 in
  next c = (opcodes.PUSH1, (next c).2) /\
  step (next c).2 = 0 /\
  instr_start [0x60; 0x01] 0 = 0 /\
  instr_start [0x60; 0x01] 1 = 2 /\
  pos (next c).2 = 1.
Proof. vm_compute. done. Qed.

(** ** Hex strings in and out *)

Lemma substring_all (s : string) : substring 0 (String.length s) s = s.
Proof. induction s as [|c s IH]; [done|]. simpl. by rewrite IH. Qed.

Lemma hex_digit_char (i : Z) :
  0 <= i < 16 -> ethers.hex_digit (ethers.hex_char i) = Some i.
Proof.
  intros H. assert (E : i = Z.of_nat (Z.to_nat i)) by lia. rewrite E.
  assert (Hn : (Z.to_nat i < 16)%nat) by lia. revert Hn. generalize (Z.to_nat i). intros n Hn.
  do 16 (destruct n as [|n]; [reflexivity|]). lia.
Qed.

Lemma byte_nibbles (z : Z) :
  0 <= z < 256 ->
  0 <= Z.shiftr (Z.land z 0xf0) 4 < 16 /\ 0 <= Z.land z 0x0f < 16 /\
  16 * Z.shiftr (Z.land z 0xf0) 4 + Z.land z 0x0f = z.
Proof.
  intros H.
  assert (A : forallb (fun n =>
                let z := Z.of_nat n in
                (0 <=? Z.shiftr (Z.land z 0xf0) 4) && (Z.shiftr (Z.land z 0xf0) 4 <? 16) &&
                (0 <=? Z.land z 0x0f) && (Z.land z 0x0f <? 16) &&
                (16 * Z.shiftr (Z.land z 0xf0) 4 + Z.land z 0x0f =? z)) (seq 0 256) = true)
    by (vm_compute; reflexivity).
  rewrite forallb_forall in A. specialize (A (Z.to_nat z)).
  rewrite Z2Nat.id in A by lia. cbv zeta in A.
  assert (In (Z.to_nat z) (seq 0 256)) as I by (apply in_seq; lia).
  apply A in I. lia.
Qed.

Lemma hexlify_bytes_parse (b : list Z) :
  Forall (fun z => 0 <= z < 256) b ->
  ethers.all_hex (ethers.hexlify_bytes b) = true /\
  ethers.hex_pairs (ethers.hexlify_bytes b) = b.
Proof.
  induction 1 as [|z b Hz _ [IH1 IH2]]; [done|].
  destruct (byte_nibbles z Hz) as (Hh & Hl & E).
  cbn [ethers.hexlify_bytes ethers.all_hex ethers.hex_pairs].
  rewrite !hex_digit_char by done. rewrite IH1, IH2, E. done.
Qed.

(** Every byte string, written in hex with the [0x] prefix, is read back by
    the constructor of the cursor as it is. *)
Lemma arrayify_hexlify (b : list Z) :
  Forall (fun z => 0 <= z < 256) b -> ethers.arrayify (ethers.hexlify b) = Return b.
Proof.
  intros Hb. destruct (hexlify_bytes_parse b Hb) as [Hall Hpairs].
  destruct (hexlify_bytes_shape b) as [Hlen _].
  unfold ethers.arrayify, ethers.hexlify.
  cbn [substring String.eqb Ascii.eqb Bool.eqb].
  replace (substring 0 0 (ethers.hexlify_bytes b)) with EmptyString
    by (by destruct (ethers.hexlify_bytes b)).
  cbn [substring String.eqb String.length ethers.isHexString].
  rewrite Hall. replace (S (S (String.length (ethers.hexlify_bytes b))) - 2)%nat
    with (String.length (ethers.hexlify_bytes b)) by lia.
  rewrite substring_all, Hlen, Hpairs.
  replace (Nat.odd (2 * length b)) with false; [done|].
  symmetry. rewrite <- Nat.negb_even. rewrite Nat.even_mul. reflexivity.
Qed.

(** The constructor on such a string, with a ring of [K >= 1] positions. *)
Lemma new_BytecodeIter_hexlify (b : list Z) (K : Z) :
  Forall (fun z => 0 <= z < 256) b -> 1 <= K ->
  new_BytecodeIter (ethers.hexlify b) (Some K) = Return (cursor_on b K).
Proof.
  intros Hb HK. unfold new_BytecodeIter. rewrite arrayify_hexlify by done.
  by replace (K =? 0) with false by lia.
Qed.

Lemma abiFromBytecode_hexlify (b : list Z) :
  Forall (fun z => 0 <= z < 256) b -> abiFromBytecode (ethers.hexlify b) = abiFromBytes b.
Proof. intros H. by rewrite abiFromBytecode_bytes, arrayify_hexlify. Qed.

(** ** Claims about the extractor *)

(** C6. Event hash shape: every event entry that [abiFromBytecode] returns
    has a hash of exactly 66 characters, [0x] and 64 lowercase hex digits: it
    is the hex of a [lastPush32] of 32 bytes, the buffer being full whenever
    a LOG consumes it. *)
Theorem event_hash_shape (input : string) (out : ABI) (hash : string) :
  abiFromBytecode input = Return out ->
  ABIEvent hash ∈ out ->
  String.length hash = 66%nat /\ hex_of_bytes 32 hash /\
  exists t, length t = 32%nat /\ hash = ethers.hexlify t.
Proof.
  intros Hout Hin.
  destruct (abiFromBytecode_return _ _ Hout) as (b & s & _ & Hs & _ & ->).
  apply scanned_inv in Hs. apply elem_of_app in Hin as [Hin|Hin].
  - destruct (inv_abi _ _ Hs _ Hin) as (t & Ht & [= ->]).
    pose proof (hexlify_shape t) as Hsh. rewrite Ht in Hsh.
    split; [by apply hex_of_bytes_length in Hsh|]. split; [done|]. by exists t.
  - apply functions_of_elem in Hin as (sel & d & _ & [=]).
Qed.

Lemma event_hash_shape_witness :
  let hash := "0x000102030405060708090a0b0c0d0e0f101112131415161718191a1b1c1d1e1f"%string in
  String.length hash = 66%nat /\ hex_of_bytes 32 hash /\
  exists t, length t = 32%nat /\ hash = ethers.hexlify t.
Proof.
  apply (event_hash_shape
           "0x7f000102030405060708090a0b0c0d0e0f101112131415161718191a1b1c1d1e1fa1"
           [ABIEvent "0x000102030405060708090a0b0c0d0e0f101112131415161718191a1b1c1d1e1f"]).
  - vm_compute. reflexivity.
  - apply list_elem_of_here.
Defined.

Lemma padded_selector_shape (imm : list Z) (sel : string) :
  padded_selector imm sel -> String.length sel = 10%nat /\ hex_of_bytes 4 sel.
Proof.
  intros [Hl ->].
  pose proof (hexlify_shape (replicate (4 - length imm) 0 ++ imm)) as Hsh.
  rewrite length_app, length_replicate in Hsh.
  replace (4 - length imm + length imm)%nat with 4%nat in Hsh by lia.
  split; [by apply hex_of_bytes_length in Hsh|done].
Qed.

(** The immediate of a step that is followed by another decoded step is
    complete: as many bytes as the width of its opcode. *)
Lemma immediate_length (b : list Z) (i : nat) :
  reached b (S i) ->
  Z.of_nat (length (js_slice b (VNum (instr_start b i + 1))
                      (VNum (instr_start b i + 1 + pushWidth (instr_op b i)))))
  = pushWidth (instr_op b i).
Proof.
  unfold reached. simpl. fold (instr_op b i). intros Hr.
  pose proof (instr_start_nonneg b i). pose proof (pushWidth_range (instr_op b i)).
  rewrite js_slice_length by lia. lia.
Qed.

(** The dispatcher of scenario S2 with a selector pushed by PUSH2: the two
    bytes come out padded to four. *)
Example selector_short_push :
  abiFromBytecode "0x8061beef1460375700" = Return [ABIFunction "0x0000beef" true].
Proof. vm_compute. reflexivity. Qed.

(** C10. Every key of [dests] and of [notPayable], in every state the loop
    passes through, is the start byte of a decoded step whose opcode is
    JUMPDEST, recorded with that step's ordinal; a key of [notPayable] is
    also a key of [dests], and the three bytes after it are CALLVALUE, DUP1
    and ISZERO.  This is so because [pos()] after a decoded JUMPDEST is the
    start byte of that JUMPDEST. *)
Theorem jumpdest_keys (b : list Z) (s : scan) (k v : Z) :
  scanned b s ->
  (s.(dests) !! k = Some v ->
     js_index b (VNum k) = VNum opcodes.JUMPDEST /\
     exists i, reached b i /\ instr_start b i = k /\ v = Z.of_nat i) /\
  (s.(notPayable) !! k = Some v ->
     s.(dests) !! k = Some v /\
     js_index b (VNum k) = VNum opcodes.JUMPDEST /\
     js_index b (VNum (k + 1)) = VNum opcodes.CALLVALUE /\
     js_index b (VNum (k + 2)) = VNum opcodes.DUP1 /\
     js_index b (VNum (k + 3)) = VNum opcodes.ISZERO) /\
  (forall m, reached b m -> instr_op b m = opcodes.JUMPDEST ->
     pos (next (cursor_at b 4 m)).2 = instr_start b m).
Proof.
  intros Hs. apply scanned_inv in Hs.
  assert (Hd : s.(dests) !! k = Some v ->
     js_index b (VNum k) = VNum opcodes.JUMPDEST /\
     exists i, reached b i /\ instr_start b i = k /\ v = Z.of_nat i).
  { intros H. destruct (inv_dests _ _ Hs _ _ H) as (i & Hr & -> & -> & Hop).
    split; [|by exists i]. rewrite <- Hop. apply byte_at_in.
    split; [apply instr_start_nonneg|done]. }
  split; [done|]. split.
  - intros H. destruct (inv_notPayable _ _ Hs _ _ H) as (Hk & H1 & H2 & H3).
    destruct (Hd Hk) as [Hj _]. done.
  - intros m Hr Hop. destruct (pos_after_next b 4 m ltac:(lia) Hr) as [-> _].
    rewrite Hop. change (pushWidth opcodes.JUMPDEST) with 0. lia.
Qed.

(** The bytes [00 5b 34 80 15]: a JUMPDEST at byte 1 with the guard behind it. *)
Lemma jumpdest_keys_witness :
  let b := [0x00; 0x5b; 0x34; 0x80; 0x15] in
  let s := match scan_all (cursor_on b 4) with
           | Return s => s
           | _ => scan_start (cursor_on b 4)
           end in
  (s.(dests) !! 1 = Some 1 /\ s.(notPayable) !! 1 = Some 1) /\
  ((s.(dests) !! 1 = Some 1 ->
     js_index b (VNum 1) = VNum opcodes.JUMPDEST /\
     exists i, reached b i /\ instr_start b i = 1 /\ 1 = Z.of_nat i) /\
   (s.(notPayable) !! 1 = Some 1 ->
     s.(dests) !! 1 = Some 1 /\
     js_index b (VNum 1) = VNum opcodes.JUMPDEST /\
     js_index b (VNum (1 + 1)) = VNum opcodes.CALLVALUE /\
     js_index b (VNum (1 + 2)) = VNum opcodes.DUP1 /\
     js_index b (VNum (1 + 3)) = VNum opcodes.ISZERO) /\
   (forall m, reached b m -> instr_op b m = opcodes.JUMPDEST ->
     pos (next (cursor_at b 4 m)).2 = instr_start b m)).
Proof.
  split; [split; vm_compute; reflexivity|].
  apply (jumpdest_keys [0x00; 0x5b; 0x34; 0x80; 0x15]).
  apply (scan_loop_scanned _ 5 (scan_start (cursor_on [0x00; 0x5b; 0x34; 0x80; 0x15] 4)));
    [apply scanned_start|].
  vm_compute. reflexivity.
Defined.

(** One turn of the loop on a LOG with a recorded PUSH32 immediate: an event
    with the hex of the immediate is appended, and the immediate stays. *)
Lemma log_emits_event (s : scan) :
  hasMore s.(code) = true ->
  isLog (next s.(code)).1 = true ->
  s.(lastPush32) <> [] ->
  scan_body s =
    Return (mkScan (s.(abi) ++ [ABIEvent (ethers.hexlify s.(lastPush32))])
              s.(jumps) s.(dests) s.(notPayable) s.(lastPush32) (next s.(code)).2).
Proof.
  intros _ Hlog Hne. unfold scan_body. destruct (next (code s)) as [inst c]. simpl in *.
  replace (inst =? opcodes.PUSH32) with false
    by (unfold isLog, opcodes.LOG1, opcodes.LOG4, opcodes.PUSH32 in *; lia).
  rewrite Hlog. destruct (lastPush32 s); [done|]. reflexivity.
Qed.

(** C7. Sticky [lastPush32]: a turn of the loop that decodes a LOG1..LOG4
    while [lastPush32] is not empty appends an event whose hash is the hex of
    [lastPush32] and leaves [lastPush32] as it is; hence the input
    [7f <T> l1 l2], a PUSH32 of the 32 bytes [T] followed by two LOG opcodes,
    gives exactly two event entries, both with hash [T]. *)
Theorem sticky_lastPush32 (T : list Z) (l1 l2 : Z) :
  length T = 32%nat ->
  Forall (fun z => 0 <= z < 256) T ->
  isLog l1 = true -> isLog l2 = true ->
  (forall s : scan,
     hasMore s.(code) = true -> isLog (next s.(code)).1 = true -> s.(lastPush32) <> [] ->
     scan_body s =
       Return (mkScan (s.(abi) ++ [ABIEvent (ethers.hexlify s.(lastPush32))])
                 s.(jumps) s.(dests) s.(notPayable) s.(lastPush32) (next s.(code)).2)) /\
  abiFromBytecode (ethers.hexlify (opcodes.PUSH32 :: T ++ [l1; l2])) =
    Return [ABIEvent (ethers.hexlify T); ABIEvent (ethers.hexlify T)].
Proof.
  intros HT HB H1 H2. split; [apply log_emits_event|].
  assert (H1' : l1 = 161 \/ l1 = 162 \/ l1 = 163 \/ l1 = 164)
    by (unfold isLog, opcodes.LOG1, opcodes.LOG4 in H1; lia).
  assert (H2' : l2 = 161 \/ l2 = 162 \/ l2 = 163 \/ l2 = 164)
    by (unfold isLog, opcodes.LOG1, opcodes.LOG4 in H2; lia).
  rewrite abiFromBytecode_hexlify.
  2:{ constructor; [unfold opcodes.PUSH32; lia|]. apply Forall_app. split; [done|].
      repeat constructor; lia. }
  clear HB H1 H2.
  do 33 (destruct T as [|? T]; try discriminate HT). clear HT.
  destruct H1' as [->|[->|[->| ->]]]; destruct H2' as [->|[->|[->| ->]]];
    cbv -[ethers.hexlify]; reflexivity.
Qed.

Lemma sticky_lastPush32_witness :
  let T := [0x00; 0x01; 0x02; 0x03; 0x04; 0x05; 0x06; 0x07;
            0x08; 0x09; 0x0a; 0x0b; 0x0c; 0x0d; 0x0e; 0x0f;
            0x10; 0x11; 0x12; 0x13; 0x14; 0x15; 0x16; 0x17;
            0x18; 0x19; 0x1a; 0x1b; 0x1c; 0x1d; 0x1e; 0xff] in
  (forall s : scan,
     hasMore s.(code) = true -> isLog (next s.(code)).1 = true -> s.(lastPush32) <> [] ->
     scan_body s =
       Return (mkScan (s.(abi) ++ [ABIEvent (ethers.hexlify s.(lastPush32))])
                 s.(jumps) s.(dests) s.(notPayable) s.(lastPush32) (next s.(code)).2)) /\
  abiFromBytecode (ethers.hexlify (opcodes.PUSH32 :: T ++ [0xa1; 0xa2])) =
    Return [ABIEvent (ethers.hexlify T); ABIEvent (ethers.hexlify T)].
Proof.
  apply (sticky_lastPush32
           [0x00; 0x01; 0x02; 0x03; 0x04; 0x05; 0x06; 0x07;
            0x08; 0x09; 0x0a; 0x0b; 0x0c; 0x0d; 0x0e; 0x0f;
            0x10; 0x11; 0x12; 0x13; 0x14; 0x15; 0x16; 0x17;
            0x18; 0x19; 0x1a; 0x1b; 0x1c; 0x1d; 0x1e; 0xff] 0xa1 0xa2).
  - reflexivity.
  - repeat (constructor; [lia|]). constructor.
  - reflexivity.
  - reflexivity.
Defined.

(** Scenario S6 on its hex string. *)
Example two_logs_after_one_push32 :
  abiFromBytecode "0x7f000102030405060708090a0b0c0d0e0f101112131415161718191a1b1c1d1e1fa1a2" =
    Return
      [ABIEvent "0x000102030405060708090a0b0c0d0e0f101112131415161718191a1b1c1d1e1f";
       ABIEvent "0x000102030405060708090a0b0c0d0e0f101112131415161718191a1b1c1d1e1f"].
Proof. vm_compute. reflexivity. Qed.

(** ** Where the extractor raises *)

Lemma scan_body_raise (s : scan) (e : exn) :
  scan_body s = Raise e ->
  e = ValueOutOfRange /\ (4 < length (valueAt (next s.(code)).2 (-4)))%nat.
Proof.
  unfold scan_body. destruct (next (code s)) as [inst c]. cbn [snd].
  repeat match goal with
         | |- context [if ?c then _ else _] => destruct c
         end; try discriminate.
  unfold ethers.zeroPad. destruct (4 <? length (valueAt c (-4)))%nat eqn:E; [|discriminate].
  intros [= <-]. split; [done|lia].
Qed.

Lemma scan_loop_raise (fuel : nat) (s : scan) (e : exn) :
  scan_loop fuel s = Raise e -> e = ValueOutOfRange.
Proof.
  revert s. induction fuel as [|fuel IH]; intros s; simpl.
  - by destruct (hasMore (code s)).
  - destruct (hasMore (code s)); [|done].
    destruct (scan_body s) as [s'| |] eqn:B; [apply IH| |done].
    intros [= <-]. by apply scan_body_raise in B as [? _].
Qed.

(** Malformed hex raises from the constructor, and the only other error is
    the one [zeroPad] throws. *)
Lemma abiFromBytecode_raise (input : string) (e : exn) :
  abiFromBytecode input = Raise e <->
  ethers.arrayify input = Raise e \/
  exists b, ethers.arrayify input = Return b /\ abiFromBytes b = Raise e /\ e = ValueOutOfRange.
Proof.
  rewrite abiFromBytecode_bytes. destruct (ethers.arrayify input) as [b| |] eqn:A.
  - split.
    + intros H. right. exists b. split; [done|]. split; [done|].
      unfold abiFromBytes, abi_of_scan, scan_all in H.
      destruct (scan_loop _ _) eqn:L in H; try discriminate.
      injection H as <-. by apply scan_loop_raise in L.
    + intros [H|(b' & [= <-] & H & _)]; [discriminate|done].
  - split; [intros [= ->]; by left|]. intros [[= ->]|(b' & H & _)]; [done|discriminate].
  - split; [discriminate|]. intros [H|(b' & H & _)]; discriminate.
Qed.

(** Scenario S7: a PUSH1 with no operand at the tail does not raise. *)
Example truncated_tail : abiFromBytecode "0x60" = Return [].
Proof. vm_compute. reflexivity. Qed.

(** C2, evaluated on the well-formed hex input [64 0102030405 14 60 00 57]
    (PUSH5, EQ, PUSH1 0x00, JUMPI): the constructor accepts it, the dispatcher
    rule matches at JUMPI with a five-byte immediate at step -4, and
    [zeroPad(.., 4)] throws, so [abiFromBytecode] raises. *)
Theorem raises_on_wide_selector_push :
  let b := [0x64; 0x01; 0x02; 0x03; 0x04; 0x05; 0x14; 0x60; 0x00; 0x57] in
  ethers.arrayify "0x64010203040514600057" = Return b /\
  valueAt (cursor_at b 4 4) (-4) = [0x01; 0x02; 0x03; 0x04; 0x05] /\
  abiFromBytecode "0x64010203040514600057" = Raise ValueOutOfRange.
Proof. cbv zeta. split_and!; vm_compute; reflexivity. Qed.

(** ** The payable flag *)

(** The flag as the code computes it: a function entry is non-payable
    exactly when a JUMPDEST followed by CALLVALUE, DUP1, ISZERO was decoded at
    its recorded destination as a step other than the first one. *)
Lemma payable_flag_rule (input : string) (out : ABI) (sel : string) (payable : bool) :
  abiFromBytecode input = Return out ->
  ABIFunction sel payable ∈ out ->
  exists b s,
    ethers.arrayify input = Return b /\ scanned b s /\
    (payable = false <->
     exists i, i <> 0%nat /\ reached b i /\
       obj_get sel s.(jumps) = VNum (instr_start b i) /\
       instr_op b i = opcodes.JUMPDEST /\
       js_index b (VNum (instr_start b i + 1)) = VNum opcodes.CALLVALUE /\
       js_index b (VNum (instr_start b i + 2)) = VNum opcodes.DUP1 /\
       js_index b (VNum (instr_start b i + 3)) = VNum opcodes.ISZERO).
Proof.
  intros Hout Hin.
  destruct (abiFromBytecode_return _ _ Hout) as (b & s & Hb & Hs & Hend & ->).
  pose proof (scanned_inv _ _ Hs) as Hi. exists b, s. split; [done|]. split; [done|].
  apply elem_of_app in Hin as [Hin|Hin].
  { destruct (inv_abi _ _ Hi _ Hin) as (t & _ & [=]). }
  apply functions_of_elem in Hin as (sel' & d0 & _ & [= -> ->]). split.
  - intros Hp. unfold num_get in Hp.
    destruct (obj_get sel' (jumps s)) as [d| |] eqn:G; try discriminate.
    destruct (notPayable s !! d) as [v|] eqn:N; [|discriminate].
    destruct (inv_notPayable _ _ Hi _ _ N) as (Hd & H1 & H2 & H3).
    destruct (inv_dests _ _ Hi _ _ Hd) as (i & Hr & -> & -> & Hop).
    exists i. split_and!; try done. intros ->. simpl in Hp. discriminate.
  - intros (i & Hne & Hr & -> & Hop & G1 & G2 & G3).
    destruct (inv_cursor _ _ Hi) as (m & Hall & Hc).
    assert (Him : (i < m)%nat).
    { destruct (Nat.lt_ge_cases i m) as [?|Hge]; [done|].
      apply (reached_le b m i Hge) in Hr. apply hasMore_cursor_at with (K := 4) in Hr.
      rewrite <- Hc, Hend in Hr. discriminate. }
    unfold num_get. rewrite (inv_guards _ _ Hi m i Hc Him Hop G1 G2 G3).
    simpl. lia.
Qed.

(** C3, evaluated on [5b 34 80 15 80 63 aabbccdd 14 60 00 57]: a JUMPDEST at
    byte 0 with CALLVALUE, DUP1, ISZERO behind it, and a dispatcher entry
    whose destination is 0. [notPayable[0]] holds the step number 0, which
    [!notPayable[..]] takes for absent, and the entry comes out payable. *)
Theorem payable_at_step_zero :
  let b := [0x5b; 0x34; 0x80; 0x15; 0x80; 0x63; 0xaa; 0xbb; 0xcc; 0xdd; 0x14; 0x60; 0x00; 0x57] in
  ethers.arrayify "0x5b3480158063aabbccdd14600057" = Return b /\
  instr_start b 0 = 0 /\ instr_op b 0 = opcodes.JUMPDEST /\
  js_index b (VNum 1) = VNum opcodes.CALLVALUE /\
  js_index b (VNum 2) = VNum opcodes.DUP1 /\
  js_index b (VNum 3) = VNum opcodes.ISZERO /\
  (exists s, scan_all (cursor_on b 4) = Return s /\
             s.(jumps) = [("0xaabbccdd"%string, VNum 0)] /\
             s.(notPayable) !! 0 = Some 0) /\
  abiFromBytecode "0x5b3480158063aabbccdd14600057" = Return [ABIFunction "0xaabbccdd" true].
Proof.
  cbv zeta. split_and!; try (vm_compute; reflexivity).
  eexists. split; [vm_compute; reflexivity|]. split; vm_compute; reflexivity.
Qed.

(** The same guard one byte further is seen. *)
Example payable_at_step_one :
  abiFromBytecode "0x005b3480158063aabbccdd14600157" = Return [ABIFunction "0xaabbccdd" false].
Proof. vm_compute. reflexivity. Qed.

(** ** The dispatcher rule on a short window *)

Lemma isPush_js_undefined : isPush_js VUndefined = true.
Proof. reflexivity. Qed.

(** C9, evaluated on [14 60 37 57] (EQ, PUSH1 0x37, JUMPI): three steps are
    decoded, [at(-4)] is [undefined] at the third, [isPush(undefined)] is
    true, the rule matches and records a [jumps] entry for the selector of
    an empty immediate. *)
Theorem selector_rule_on_three_steps :
  let b := [0x14; 0x60; 0x37; 0x57] in
  ethers.arrayify "0x14603757" = Return b /\
  reached b 2 /\ ~ reached b 3 /\
  at_ (cursor_at b 4 3) (-4) = VUndefined /\
  isPush_js (at_ (cursor_at b 4 3) (-4)) = true /\
  valueAt (cursor_at b 4 3) (-4) = [] /\
  (exists s, scan_all (cursor_on b 4) = Return s /\
             s.(jumps) = [("0x00000000"%string, VNum 0x37)]) /\
  abiFromBytecode "0x14603757" = Return [ABIFunction "0x00000000" true].
Proof.
  cbv zeta. split_and!; try (vm_compute; reflexivity).
  - unfold reached. vm_compute. discriminate.
  - eexists. split; vm_compute; reflexivity.
Qed.

(** With fewer than three steps decoded the rule cannot match, and with
    fewer than four it cannot throw: the immediate read at step -4 is empty. *)
Lemma short_window (b : list Z) (s : scan) (m : nat) :
  s.(code) = cursor_at b 4 m -> reached b m -> (m < 3)%nat ->
  exists s', scan_body s = Return s' /\ ((m < 2)%nat -> s'.(jumps) = s.(jumps)).
Proof.
  intros Hc Hr Hm. unfold scan_body. rewrite Hc, next_cursor_at by (done || lia).
  assert (Hv : valueAt (cursor_at b 4 (S m)) (-4) = []).
  { unfold valueAt. change (-4) with (- (4)). rewrite resolve_short by lia.
    cbn [js_index pushWidth_js js_lt js_gt orb js_add js_sub]. apply js_slice_nan. }
  assert (H3 : (m < 2)%nat -> at_ (cursor_at b 4 (S m)) (-3) = VUndefined).
  { intros Hm2. unfold at_. change (-3) with (- (3)). by rewrite resolve_short by lia. }
  rewrite Hv. cbn [ethers.zeroPad length Nat.ltb Nat.leb].
  repeat match goal with
         | |- context [if ?c then _ else _] => destruct c eqn:?
         end; eexists; (split; [reflexivity|]); try done.
  intros Hm2. rewrite (H3 Hm2) in *. simpl in *.
  repeat match goal with H : _ && _ = true |- _ => apply andb_true_iff in H as [? ?] end.
  discriminate.
Qed.

(** * Further properties *)

(** ** Provenance of the loop's variables *)

Lemma at_short (b : list Z) (K : Z) (m : nat) (k : Z) :
  Z.of_nat (Nat.min m (Z.to_nat K)) < k -> at_ (cursor_at b K m) (- k) = VUndefined.
Proof. intros Hk. unfold at_. by rewrite resolve_short. Qed.

Lemma valueAt_short (b : list Z) (K : Z) (m : nat) (k : Z) :
  Z.of_nat (Nat.min m (Z.to_nat K)) < k -> valueAt (cursor_at b K m) (- k) = [].
Proof.
  intros Hk. unfold valueAt. rewrite resolve_short by done.
  cbn [js_index pushWidth_js js_lt js_gt orb js_add js_sub]. apply js_slice_nan.
Qed.

Lemma valueAt_immediate (b : list Z) (K : Z) (m : nat) (k : nat) :
  (forall i, (i < m)%nat -> reached b i) ->
  (1 <= k <= Nat.min m (Z.to_nat K))%nat ->
  valueAt (cursor_at b K m) (- Z.of_nat k) = immediate b (m - k).
Proof.
  intros Hr Hk. rewrite valueAt_ring by (done || lia).
  by replace (m - Z.to_nat (Z.of_nat k))%nat with (m - k)%nat by lia.
Qed.

(** What a match of the dispatcher rule after step [m] says of the steps. *)
Lemma rule4_dispatch (b : list Z) (m : nat) :
  (forall i, (i < S m)%nat -> reached b i) ->
  js_seq (at_ (cursor_at b 4 (S m)) (-1)) (VNum opcodes.JUMPI) &&
  isPush_js (at_ (cursor_at b 4 (S m)) (-2)) &&
  js_seq (at_ (cursor_at b 4 (S m)) (-3)) (VNum opcodes.EQ) &&
  isPush_js (at_ (cursor_at b 4 (S m)) (-4)) = true ->
  dispatch_at b m (parseInt16 (ethers.hexlify (valueAt (cursor_at b 4 (S m)) (-2)))).
Proof.
  intros Hr E.
  apply andb_true_iff in E as [E E4]. apply andb_true_iff in E as [E E3].
  apply andb_true_iff in E as [E1 E2]. apply js_seq_num in E1, E3.
  assert (H2 : (2 <= m)%nat).
  { destruct (Nat.le_gt_cases 2 m) as [?|Hlt]; [done|].
    change (-3) with (- (3)) in E3. rewrite at_short in E3 by lia. discriminate. }
  change (-1) with (- (1)) in E1. change (-2) with (- (2)) in E2.
  change (-3) with (- (3)) in E3. change (-4) with (- (4)) in E4.
  rewrite at_ring in E1, E2, E3 by (done || lia).
  injection E1 as E1. injection E3 as E3.
  replace (S m - Z.to_nat 1)%nat with m in E1 by lia.
  replace (S m - Z.to_nat 2)%nat with (m - 1)%nat in E2 by lia.
  replace (S m - Z.to_nat 3)%nat with (m - 2)%nat in E3 by lia.
  unfold dispatch_at. split_and!.
  - apply Hr. lia.
  - done.
  - by rewrite Nat.sub_0_r in E1.
  - by rewrite <- isPush_js_num.
  - done.
  - intros H3. rewrite at_ring in E4 by (done || lia).
    by replace (S m - Z.to_nat 4)%nat with (m - 3)%nat in E4 by lia.
  - change (-2) with (- Z.of_nat 2). rewrite valueAt_immediate by (done || lia).
    by replace (S m - 2)%nat with (m - 1)%nat by lia.
Qed.

Lemma last_push32_step (b : list Z) (m i : nat) :
  last_push32 b m i -> instr_op b m <> opcodes.PUSH32 -> last_push32 b (S m) i.
Proof.
  intros (Hi & Hop & Hlast) Hm. split_and!; [lia|done|].
  intros k Hk. destruct (decide (k = m)) as [->|Hne]; [done|]. apply Hlast. lia.
Qed.

Lemma obj_set_keys k v o :
  map fst (obj_set k v o) = if decide (k ∈ map fst o) then map fst o else map fst o ++ [k].
Proof.
  induction o as [|[k0 v0] o IH]; [done|]. simpl.
  destruct (String.eqb k k0) eqn:E.
  - apply String.eqb_eq in E as ->. simpl. rewrite decide_True; [done|]. by left.
  - apply String.eqb_neq in E. simpl. rewrite IH.
    destruct (decide (k ∈ map fst o)) as [Hin|Hout].
    + rewrite decide_True; [done|]. by right.
    + rewrite decide_False; [done|]. intros H. apply elem_of_cons in H as [?|?]; done.
Qed.

Lemma obj_set_NoDup k v o : NoDup (map fst o) -> NoDup (map fst (obj_set k v o)).
Proof.
  intros H. rewrite obj_set_keys. destruct (decide _) as [Hin|Hout]; [done|].
  apply NoDup_app. split_and!; [done| |apply NoDup_singleton].
  intros x Hx Hk. apply list_elem_of_singleton in Hk as ->. done.
Qed.

Lemma obj_set_length k v o : (length (obj_set k v o) <= S (length o))%nat.
Proof.
  assert (H : length (obj_set k v o) = length (map fst (obj_set k v o)))
    by (by rewrite length_map).
  rewrite H, obj_set_keys. destruct (decide _); rewrite ?length_app, length_map; simpl; lia.
Qed.

Lemma scan_start_trace (b : list Z) : scan_trace b 0 (scan_start (cursor_on b 4)).
Proof.
  constructor; simpl.
  - by left.
  - intros e H. by apply not_elem_of_nil in H.
  - intros sel d H. by apply not_elem_of_nil in H.
  - apply NoDup_nil_2.
  - lia.
Qed.

Lemma scan_body_trace (b : list Z) (m : nat) (s s' : scan) :
  scan_inv b s -> (forall i, (i < m)%nat -> reached b i) -> s.(code) = cursor_at b 4 m ->
  scan_trace b m s -> hasMore s.(code) = true -> scan_body s = Return s' ->
  s'.(code) = cursor_at b 4 (S m) /\ reached b m /\ scan_trace b (S m) s'.
Proof.
  intros Hinv Hr Hc [Hl Ha Hj Hk Hn] Hm Hb.
  pose proof (inv_lastPush32 _ _ Hinv Hm) as Hlen.
  rewrite Hc in Hm. apply hasMore_cursor_at in Hm.
  assert (Hr' : forall i, (i < S m)%nat -> reached b i).
  { intros i Hi. apply (reached_le b i m); [lia|done]. }
  assert (Ha' : forall e, e ∈ abi s ->
            exists i j, (j < S m)%nat /\ last_push32 b j i /\ isLog (instr_op b j) = true /\
                        length (immediate b i) = 32%nat /\
                        e = ABIEvent (ethers.hexlify (immediate b i))).
  { intros e He. destruct (Ha e He) as (i & j & Hjm & H). exists i, j. split; [lia|done]. }
  assert (Hj' : forall sel d, (sel, d) ∈ jumps s ->
            exists j, (j < S m)%nat /\ dispatch_at b j d /\
                      padded_selector (valueAt (cursor_at b 4 (S j)) (-4)) sel).
  { intros sel d He. destruct (Hj sel d He) as (j & Hjm & H). exists j. split; [lia|done]. }
  assert (Hl' : instr_op b m <> opcodes.PUSH32 ->
            lastPush32 s = [] \/
            exists i, last_push32 b (S m) i /\ lastPush32 s = immediate b i).
  { intros Hop. destruct Hl as [Hl|(i & Hi & Hl)]; [by left|right].
    exists i. split; [by apply last_push32_step|done]. }
  split; [|split; [done|]].
  { rewrite (scan_body_code _ _ Hb), Hc, next_cursor_at by (done || lia). done. }
  unfold scan_body in Hb. rewrite Hc, next_cursor_at in Hb by (done || lia).
  destruct (instr_op b m =? opcodes.PUSH32) eqn:E1.
  { injection Hb as <-. constructor; cbn [code dests notPayable lastPush32 abi jumps];
      try done; [|lia].
    right. exists m. split.
    - split_and!; [lia|lia|]. intros k Hk'. lia.
    - unfold value. change (-1) with (- Z.of_nat 1).
      rewrite valueAt_immediate by (done || lia).
      by replace (S m - 1)%nat with m by lia. }
  assert (Hne : instr_op b m <> opcodes.PUSH32) by lia.
  destruct (isLog (instr_op b m) && (0 <? Z.of_nat (length (lastPush32 s)))) eqn:E2.
  { injection Hb as <-. constructor; cbn [code dests notPayable lastPush32 abi jumps];
      try done; [by apply Hl'| |rewrite length_app; simpl; lia].
    intros e He. apply elem_of_app in He as [He|He]; [by apply Ha'|].
    apply list_elem_of_singleton in He as ->.
    apply andb_true_iff in E2 as [Hlog Hpos].
    destruct Hl as [Hl|(i & Hi & Hl)]; [rewrite Hl in Hpos; simpl in Hpos; lia|].
    exists i, m. split_and!; try done; [lia| |by rewrite Hl].
    destruct Hlen as [Hlen|Hlen]; [rewrite Hlen in Hpos; simpl in Hpos; lia|].
    by rewrite <- Hl. }
  destruct (instr_op b m =? opcodes.JUMPDEST) eqn:E3.
  { injection Hb as <-. constructor; cbn [code dests notPayable lastPush32 abi jumps];
      try done; [by apply Hl'|lia]. }
  destruct (js_seq (at_ (cursor_at b 4 (S m)) (-1)) (VNum opcodes.JUMPI) &&
            isPush_js (at_ (cursor_at b 4 (S m)) (-2)) &&
            js_seq (at_ (cursor_at b 4 (S m)) (-3)) (VNum opcodes.EQ) &&
            isPush_js (at_ (cursor_at b 4 (S m)) (-4))) eqn:E4.
  { destruct (ethers.zeroPad (valueAt (cursor_at b 4 (S m)) (-4)) 4) as [v| |] eqn:Z;
      try discriminate.
    injection Hb as <-. constructor; cbn [code dests notPayable lastPush32 abi jumps];
      try done; [by apply Hl'| |by apply obj_set_NoDup|].
    - intros sel d H. apply obj_set_elem in H as [[= -> ->]|H]; [|by apply Hj'].
      exists m. split; [lia|]. split; [by apply rule4_dispatch|].
      apply zeroPad_length in Z as (_ & ? & ->). by split.
    - pose proof (obj_set_length (ethers.hexlify v)
                    (parseInt16 (ethers.hexlify (valueAt (cursor_at b 4 (S m)) (-2))))
                    (jumps s)). lia. }
  injection Hb as <-. constructor; cbn [code dests notPayable lastPush32 abi jumps];
    try done; [by apply Hl'|lia].
Qed.

Lemma scanned_trace (b : list Z) (s : scan) :
  scanned b s ->
  exists m, (forall i, (i < m)%nat -> reached b i) /\ s.(code) = cursor_at b 4 m /\
            scan_trace b m s.
Proof.
  induction 1 as [|s s' Hs (m & Hr & Hc & Ht) Hm Hb].
  - exists 0%nat. split; [lia|]. split; [done|apply scan_start_trace].
  - destruct (scan_body_trace b m s s' (scanned_inv _ _ Hs) Hr Hc Ht Hm Hb)
      as (Hc' & Hrm & Ht').
    exists (S m). split; [|done].
    intros i Hi. apply (reached_le b i m); [lia|done].
Qed.

Lemma abiFromBytecode_trace (input : string) (out : ABI) :
  abiFromBytecode input = Return out ->
  exists b s m,
    ethers.arrayify input = Return b /\ scanned b s /\
    (forall i, (i < m)%nat -> reached b i) /\ ~ reached b m /\
    scan_trace b m s /\ out = s.(abi) ++ functions_of s.
Proof.
  intros Hout.
  destruct (abiFromBytecode_return _ _ Hout) as (b & s & Hb & Hs & Hend & ->).
  destruct (scanned_trace _ _ Hs) as (m & Hr & Hc & Ht).
  exists b, s, m. split_and!; try done.
  intros Hm. apply hasMore_cursor_at with (K := 4) in Hm. rewrite <- Hc, Hend in Hm. done.
Qed.

(** The converse of [rule4_dispatch]: on steps that look as the rule asks, the
    test of the rule holds. *)
Lemma dispatch_rule4 (b : list Z) (m : nat) (d : jsval) :
  (forall i, (i < S m)%nat -> reached b i) -> dispatch_at b m d ->
  js_seq (at_ (cursor_at b 4 (S m)) (-1)) (VNum opcodes.JUMPI) &&
  isPush_js (at_ (cursor_at b 4 (S m)) (-2)) &&
  js_seq (at_ (cursor_at b 4 (S m)) (-3)) (VNum opcodes.EQ) &&
  isPush_js (at_ (cursor_at b 4 (S m)) (-4)) = true.
Proof.
  intros Hr (_ & H2 & Hop & Hp & He & H3 & _).
  change (-1) with (- (1)). change (-2) with (- (2)).
  change (-3) with (- (3)). change (-4) with (- (4)).
  rewrite (at_ring b 4 (S m) 1), (at_ring b 4 (S m) 2), (at_ring b 4 (S m) 3)
    by (done || lia).
  replace (S m - Z.to_nat 1)%nat with m by lia.
  replace (S m - Z.to_nat 2)%nat with (m - 1)%nat by lia.
  replace (S m - Z.to_nat 3)%nat with (m - 2)%nat by lia.
  rewrite Hop, He, isPush_js_num, Hp. cbn [js_seq]. rewrite !Z.eqb_refl. cbn [andb].
  destruct (Nat.le_gt_cases 3 m) as [Hm|Hm].
  - rewrite (at_ring b 4 (S m) 4) by (done || lia).
    replace (S m - Z.to_nat 4)%nat with (m - 3)%nat by lia.
    rewrite isPush_js_num. by apply H3.
  - by rewrite at_short by lia.
Qed.

(** ** The selector of a function *)

(** C4. Selector canonicalization: every function selector that
    [abiFromBytecode] returns is exactly 10 characters, [0x] and 8 lowercase
    hex digits. It was written when the dispatcher rule matched at a decoded
    step [m], a JUMPI after a PUSH after an EQ, and it renders the immediate
    that [valueAt(-4)] read there: an immediate of at most 4 bytes, padded
    with zero bytes on the left to exactly 4 bytes. With a step decoded before
    the EQ that step is a PUSHk, the selector PUSH of the idiom, and the
    immediate is its operand, all [k] bytes of it, so that a PUSHk with
    [k < 4] comes out with [4 - k] zero bytes before its operand; with none,
    the immediate is empty. *)
Theorem selector_canonical (input : string) (out : ABI) (sel : string) (payable : bool) :
  abiFromBytecode input = Return out ->
  ABIFunction sel payable ∈ out ->
  String.length sel = 10%nat /\ hex_of_bytes 4 sel /\
  exists b m imm,
    ethers.arrayify input = Return b /\ reached b m /\
    js_seq (at_ (cursor_at b 4 (S m)) (-1)) (VNum opcodes.JUMPI) &&
      isPush_js (at_ (cursor_at b 4 (S m)) (-2)) &&
      js_seq (at_ (cursor_at b 4 (S m)) (-3)) (VNum opcodes.EQ) &&
      isPush_js (at_ (cursor_at b 4 (S m)) (-4)) = true /\
    (2 <= m)%nat /\
    instr_op b m = opcodes.JUMPI /\
    isPush (instr_op b (m - 1)) = true /\
    instr_op b (m - 2) = opcodes.EQ /\
    imm = valueAt (cursor_at b 4 (S m)) (-4) /\
    (length imm <= 4)%nat /\
    length (replicate (4 - length imm) 0 ++ imm) = 4%nat /\
    sel = ethers.hexlify (replicate (4 - length imm) 0 ++ imm) /\
    ((3 <= m)%nat ->
       isPush (instr_op b (m - 3)) = true /\
       imm = js_slice b (VNum (instr_start b (m - 3) + 1))
               (VNum (instr_start b (m - 3) + 1 + pushWidth (instr_op b (m - 3)))) /\
       Z.of_nat (length imm) = pushWidth (instr_op b (m - 3))) /\
    (m = 2%nat -> imm = []).
Proof.
  intros Hout Hin.
  destruct (abiFromBytecode_trace _ _ Hout) as (b & s & n & Hb & _ & Hr & _ & Ht & ->).
  apply elem_of_app in Hin as [Hin|Hin].
  { destruct (tr_abi _ _ _ Ht _ Hin) as (i & j & _ & _ & _ & _ & [=]). }
  apply functions_of_elem in Hin as (sel' & d & Hj & [= -> _]).
  destruct (tr_jumps _ _ _ Ht _ _ Hj) as (m & Hmn & Hd & Hp).
  destruct (padded_selector_shape _ _ Hp) as [H10 Hshape].
  assert (Hall : forall i, (i < S m)%nat -> reached b i) by (intros i Hi; apply Hr; lia).
  pose proof (dispatch_rule4 b m d Hall Hd) as Htest.
  destruct Hd as (Hrm & H2 & Hop & Hp1 & He & H3 & _). destruct Hp as [Hle Hsel].
  split; [done|]. split; [done|].
  exists b, m, (valueAt (cursor_at b 4 (S m)) (-4)).
  split; [done|]. split; [done|]. split; [done|]. split; [done|]. split; [done|].
  split; [done|]. split; [done|]. split; [done|]. split; [done|].
  split; [rewrite length_app, length_replicate; lia|]. split; [done|]. split.
  - intros Hm3.
    assert (Hv : valueAt (cursor_at b 4 (S m)) (-4) =
                 js_slice b (VNum (instr_start b (m - 3) + 1))
                   (VNum (instr_start b (m - 3) + 1 + pushWidth (instr_op b (m - 3))))).
    { change (-4) with (- (4)). rewrite valueAt_ring by (done || lia).
      by replace (S m - Z.to_nat 4)%nat with (m - 3)%nat by lia. }
    split; [by apply H3|]. split; [done|]. rewrite Hv. apply immediate_length.
    apply (reached_le b (S (m - 3)) m); [lia|done].
  - intros ->. change (-4) with (- (4)). by rewrite valueAt_short by (simpl; lia).
Qed.

Lemma selector_canonical_witness :
  let sel := "0x0000beef"%string in
  String.length sel = 10%nat /\ hex_of_bytes 4 sel /\
  exists b m imm,
    ethers.arrayify "0x8061beef1460375700" = Return b /\ reached b m /\
    js_seq (at_ (cursor_at b 4 (S m)) (-1)) (VNum opcodes.JUMPI) &&
      isPush_js (at_ (cursor_at b 4 (S m)) (-2)) &&
      js_seq (at_ (cursor_at b 4 (S m)) (-3)) (VNum opcodes.EQ) &&
      isPush_js (at_ (cursor_at b 4 (S m)) (-4)) = true /\
    (2 <= m)%nat /\
    instr_op b m = opcodes.JUMPI /\
    isPush (instr_op b (m - 1)) = true /\
    instr_op b (m - 2) = opcodes.EQ /\
    imm = valueAt (cursor_at b 4 (S m)) (-4) /\
    (length imm <= 4)%nat /\
    length (replicate (4 - length imm) 0 ++ imm) = 4%nat /\
    sel = ethers.hexlify (replicate (4 - length imm) 0 ++ imm) /\
    ((3 <= m)%nat ->
       isPush (instr_op b (m - 3)) = true /\
       imm = js_slice b (VNum (instr_start b (m - 3) + 1))
               (VNum (instr_start b (m - 3) + 1 + pushWidth (instr_op b (m - 3)))) /\
       Z.of_nat (length imm) = pushWidth (instr_op b (m - 3))) /\
    (m = 2%nat -> imm = []).
Proof.
  apply (selector_canonical "0x8061beef1460375700" [ABIFunction "0x0000beef" true]
           "0x0000beef" true).
  - vm_compute. reflexivity.
  - apply list_elem_of_here.
Defined.

Lemma instr_start_ge (b : list Z) (i : nat) : Z.of_nat i <= instr_start b i.
Proof.
  induction i as [|i IH]; [done|]. pose proof (instr_start_lt b i). lia.
Qed.

Lemma reached_lt_length (b : list Z) (i : nat) : reached b i -> (i < length b)%nat.
Proof. unfold reached. pose proof (instr_start_ge b i). lia. Qed.

Lemma selectors_events (l : ABI) :
  (forall e, e ∈ l -> is_event e = true) -> selectors l = [].
Proof.
  induction l as [|e l IH]; [done|]. intros H. unfold selectors. simpl.
  pose proof (H e ltac:(by left)) as He. destruct e; [discriminate|].
  apply IH. intros e' He'. apply H. by right.
Qed.

Lemma selectors_map (g : string -> bool) (l : list string) :
  selectors (map (fun sel => ABIFunction sel (g sel)) l) = l /\
  forallb is_function (map (fun sel => ABIFunction sel (g sel)) l) = true.
Proof.
  induction l as [|k l [IH1 IH2]]; [done|]. split.
  - change (k :: selectors (map (fun sel => ABIFunction sel (g sel)) l) = k :: l).
    by rewrite IH1.
  - exact IH2.
Qed.

Lemma selectors_functions_of (s : scan) : selectors (functions_of s) = map fst s.(jumps).
Proof. unfold functions_of. apply selectors_map. Qed.

Lemma functions_of_functions (s : scan) : forallb is_function (functions_of s) = true.
Proof. unfold functions_of. apply selectors_map. Qed.

(** ** Where events and functions come from *)

(** Every event of the output is the operand of a PUSH32: the last PUSH32
    decoded before some decoded LOG1..LOG4, with all 32 bytes of it. *)
Theorem event_provenance (input : string) (out : ABI) (hash : string) :
  abiFromBytecode input = Return out ->
  ABIEvent hash ∈ out ->
  exists b i j,
    ethers.arrayify input = Return b /\
    reached b j /\ isLog (instr_op b j) = true /\
    (i < j)%nat /\ instr_op b i = opcodes.PUSH32 /\
    (forall k, (i < k < j)%nat -> instr_op b k <> opcodes.PUSH32) /\
    length (immediate b i) = 32%nat /\
    hash = ethers.hexlify (immediate b i).
Proof.
  intros Hout Hin.
  destruct (abiFromBytecode_trace _ _ Hout) as (b & s & m & Hb & _ & Hr & _ & Ht & ->).
  apply elem_of_app in Hin as [Hin|Hin].
  - destruct (tr_abi _ _ _ Ht _ Hin) as (i & j & Hj & (Hi & Hop & Hlast) & Hlog & Hlen & [= ->]).
    exists b, i, j. split_and!; try done. by apply Hr.
  - apply functions_of_elem in Hin as (sel & d & _ & [=]).
Qed.

Lemma event_provenance_witness :
  exists b i j,
    ethers.arrayify "0x7f000102030405060708090a0b0c0d0e0f101112131415161718191a1b1c1d1e1f00a2"
      = Return b /\
    reached b j /\ isLog (instr_op b j) = true /\
    (i < j)%nat /\ instr_op b i = opcodes.PUSH32 /\
    (forall k, (i < k < j)%nat -> instr_op b k <> opcodes.PUSH32) /\
    length (immediate b i) = 32%nat /\
    "0x000102030405060708090a0b0c0d0e0f101112131415161718191a1b1c1d1e1f"%string
      = ethers.hexlify (immediate b i).
Proof.
  apply (event_provenance
           "0x7f000102030405060708090a0b0c0d0e0f101112131415161718191a1b1c1d1e1f00a2"
           [ABIEvent "0x000102030405060708090a0b0c0d0e0f101112131415161718191a1b1c1d1e1f"]).
  - vm_compute. reflexivity.
  - apply list_elem_of_here.
Defined.

(** Every function of the output comes from three consecutive decoded steps
    EQ, PUSHn, JUMPI; its selector renders the operand of the PUSH decoded just
    before them, or four zero bytes when the EQ is the first step of the
    bytecode. *)
Theorem function_provenance (input : string) (out : ABI) (sel : string) (payable : bool) :
  abiFromBytecode input = Return out ->
  ABIFunction sel payable ∈ out ->
  exists b j,
    ethers.arrayify input = Return b /\
    reached b j /\ (2 <= j)%nat /\
    instr_op b j = opcodes.JUMPI /\
    isPush (instr_op b (j - 1)) = true /\
    instr_op b (j - 2) = opcodes.EQ /\
    ((3 <= j)%nat ->
       isPush (instr_op b (j - 3)) = true /\ padded_selector (immediate b (j - 3)) sel) /\
    (j = 2%nat -> sel = "0x00000000"%string).
Proof.
  intros Hout Hin.
  destruct (abiFromBytecode_trace _ _ Hout) as (b & s & m & Hb & _ & Hr & _ & Ht & ->).
  apply elem_of_app in Hin as [Hin|Hin].
  { destruct (tr_abi _ _ _ Ht _ Hin) as (i & j & _ & _ & _ & _ & [=]). }
  apply functions_of_elem in Hin as (sel' & d & Hj & [= -> _]).
  destruct (tr_jumps _ _ _ Ht _ _ Hj) as (j & Hjm & (Hrj & H2 & Hop & Hp & He & H3 & _) & Hsel).
  exists b, j. split_and!; try done.
  - intros Hj3. split; [by apply H3|].
    change (-4) with (- Z.of_nat 4) in Hsel. rewrite valueAt_immediate in Hsel.
    + by replace (S j - 4)%nat with (j - 3)%nat in Hsel by lia.
    + intros i Hi. apply (reached_le b i j); [lia|done].
    + lia.
  - intros ->. change (-4) with (- (4)) in Hsel. rewrite valueAt_short in Hsel by (simpl; lia).
    by destruct Hsel as [_ ->].
Qed.

Lemma function_provenance_witness :
  exists b j,
    ethers.arrayify "0x8061beef1460375700" = Return b /\
    reached b j /\ (2 <= j)%nat /\
    instr_op b j = opcodes.JUMPI /\
    isPush (instr_op b (j - 1)) = true /\
    instr_op b (j - 2) = opcodes.EQ /\
    ((3 <= j)%nat ->
       isPush (instr_op b (j - 3)) = true /\
       padded_selector (immediate b (j - 3)) "0x0000beef") /\
    (j = 2%nat -> "0x0000beef"%string = "0x00000000"%string).
Proof.
  apply (function_provenance "0x8061beef1460375700" [ABIFunction "0x0000beef" true]
           "0x0000beef" true).
  - vm_compute. reflexivity.
  - apply list_elem_of_here.
Defined.

(** ** The shape of the output *)

(** The output lists the events first, in the order of their LOGs, and the
    functions after them: no event follows a function. *)
Theorem events_before_functions (input : string) (out : ABI) :
  abiFromBytecode input = Return out ->
  exists events functions,
    out = events ++ functions /\
    forallb is_event events = true /\ forallb is_function functions = true.
Proof.
  intros Hout.
  destruct (abiFromBytecode_trace _ _ Hout) as (b & s & m & _ & _ & _ & _ & Ht & ->).
  exists (abi s), (functions_of s). split; [done|]. split; [|apply functions_of_functions].
  apply forallb_forall. intros e He. apply list_elem_of_In in He.
  by destruct (tr_abi _ _ _ Ht _ He) as (i & j & _ & _ & _ & _ & ->).
Qed.

Lemma events_before_functions_witness :
  exists events functions,
    [ABIEvent "0x000102030405060708090a0b0c0d0e0f101112131415161718191a1b1c1d1e1f";
     ABIFunction "0x0000beef" true] = events ++ functions /\
    forallb is_event events = true /\ forallb is_function functions = true.
Proof.
  apply (events_before_functions
    "0x8061beef146037577f000102030405060708090a0b0c0d0e0f101112131415161718191a1b1c1d1e1fa1").
  vm_compute. reflexivity.
Defined.

(** No selector is reported twice: the function entries have pairwise distinct
    selectors, a later match of a selector overwriting the earlier one. *)
Theorem selectors_distinct (input : string) (out : ABI) :
  abiFromBytecode input = Return out -> NoDup (selectors out).
Proof.
  intros Hout.
  destruct (abiFromBytecode_trace _ _ Hout) as (b & s & m & _ & _ & _ & _ & Ht & ->).
  unfold selectors. rewrite omap_app. fold (selectors (abi s)) (selectors (functions_of s)).
  rewrite selectors_events, selectors_functions_of; [apply (tr_keys _ _ _ Ht)|].
  intros e He. by destruct (tr_abi _ _ _ Ht _ He) as (i & j & _ & _ & _ & _ & ->).
Qed.

Lemma selectors_distinct_witness :
  NoDup (selectors [ABIFunction "0x0000beef" true; ABIFunction "0x0000cafe" true]).
Proof.
  apply (selectors_distinct "0x8061beef146037578061cafe146040578061beef14603757").
  vm_compute. reflexivity.
Defined.

(** ** Exactly when the loop throws *)

Lemma scan_body_raise_match (s : scan) (e : exn) :
  scan_body s = Raise e ->
  let c := (next s.(code)).2 in
  js_seq (at_ c (-1)) (VNum opcodes.JUMPI) && isPush_js (at_ c (-2)) &&
  js_seq (at_ c (-3)) (VNum opcodes.EQ) && isPush_js (at_ c (-4)) = true /\
  (4 < length (valueAt c (-4)))%nat /\ e = ValueOutOfRange.
Proof.
  unfold scan_body. destruct (next (code s)) as [inst c]. cbn [snd].
  repeat match goal with
         | |- context [if ?c then _ else _] => destruct c eqn:?
         end; try discriminate.
  unfold ethers.zeroPad. destruct (4 <? length (valueAt c (-4)))%nat eqn:E; [|discriminate].
  intros [= <-]. split; [done|]. split; [lia|done].
Qed.

(** A turn of the loop at a JUMPI that follows a PUSH of five bytes or more,
    an EQ and a PUSH throws. *)
Lemma scan_body_wide (b : list Z) (j : nat) (s : scan) :
  s.(code) = cursor_at b 4 j -> reached b j -> (3 <= j)%nat ->
  instr_op b j = opcodes.JUMPI ->
  isPush (instr_op b (j - 1)) = true ->
  instr_op b (j - 2) = opcodes.EQ ->
  5 <= pushWidth (instr_op b (j - 3)) ->
  scan_body s = Raise ValueOutOfRange.
Proof.
  intros Hc Hr H3 Hop Hp He Hw.
  assert (Hall : forall i, (i < S j)%nat -> reached b i).
  { intros i Hi. apply (reached_le b i j); [lia|done]. }
  unfold scan_body. rewrite Hc, next_cursor_at by (done || lia). rewrite Hop.
  change (opcodes.JUMPI =? opcodes.PUSH32) with false.
  change (isLog opcodes.JUMPI) with false.
  change (opcodes.JUMPI =? opcodes.JUMPDEST) with false. cbn [andb].
  change (-1) with (- (1)). change (-2) with (- (2)).
  change (-3) with (- (3)). change (-4) with (- Z.of_nat 4).
  rewrite valueAt_immediate by (done || lia). change (- Z.of_nat 4) with (- (4)).
  rewrite !at_ring by (done || lia).
  replace (S j - Z.to_nat 1)%nat with j by lia.
  replace (S j - Z.to_nat 2)%nat with (j - 1)%nat by lia.
  replace (S j - Z.to_nat 3)%nat with (j - 2)%nat by lia.
  replace (S j - Z.to_nat 4)%nat with (j - 3)%nat by lia.
  replace (S j - 4)%nat with (j - 3)%nat by lia.
  rewrite Hop, He, !isPush_js_num, Hp.
  assert (Hp3 : isPush (instr_op b (j - 3)) = true).
  { unfold pushWidth in Hw. unfold isPush.
    destruct ((instr_op b (j - 3) <? opcodes.PUSH1) || (instr_op b (j - 3) >? opcodes.PUSH32));
      [lia|done]. }
  rewrite Hp3. cbn [js_seq andb]. rewrite !Z.eqb_refl. cbn [andb].
  unfold ethers.zeroPad.
  assert (Hlen : Z.of_nat (length (immediate b (j - 3))) = pushWidth (instr_op b (j - 3))).
  { apply immediate_length. apply (reached_le b (S (j - 3)) j); [lia|done]. }
  by replace (4 <? length (immediate b (j - 3)))%nat with true by lia.
Qed.

(** The loop, started after [m] steps, passes through every step it reaches
    unless it throws before. *)
Lemma scan_loop_passes (b : list Z) (fuel : nat) (s s' : scan) (m j : nat) :
  s.(code) = cursor_at b 4 m -> (m <= j)%nat -> reached b j ->
  scan_loop fuel s = Return s' ->
  exists sj s'', sj.(code) = cursor_at b 4 j /\ scan_body sj = Return s''.
Proof.
  revert s m. induction fuel as [|fuel IH]; intros s m Hc Hmj Hr; simpl.
  - destruct (hasMore (code s)) eqn:E; [discriminate|].
    assert (Hm : hasMore (code s) = true).
    { rewrite Hc. apply hasMore_cursor_at. by apply (reached_le b m j). }
    congruence.
  - assert (Hm : hasMore (code s) = true).
    { rewrite Hc. apply hasMore_cursor_at. by apply (reached_le b m j). }
    rewrite Hm. destruct (scan_body s) as [s1| |] eqn:B; try discriminate.
    intros Hloop. destruct (decide (m = j)) as [->|Hne]; [by exists s, s1|].
    apply (IH s1 (S m)); [|lia|done|done].
    rewrite (scan_body_code _ _ B), Hc, next_cursor_at; [done|lia|].
    by apply (reached_le b m j).
Qed.

(** When the loop throws, it does so in the turn of some step it reached. *)
Lemma scan_loop_raise_at (b : list Z) (fuel : nat) (s : scan) (m : nat) (e : exn) :
  s.(code) = cursor_at b 4 m ->
  scan_loop fuel s = Raise e ->
  exists sj j, reached b j /\ sj.(code) = cursor_at b 4 j /\ scan_body sj = Raise e.
Proof.
  revert s m. induction fuel as [|fuel IH]; intros s m Hc; simpl.
  - by destruct (hasMore (code s)).
  - destruct (hasMore (code s)) eqn:Hm; [|discriminate].
    assert (Hr : reached b m) by (rewrite Hc in Hm; by apply hasMore_cursor_at in Hm).
    destruct (scan_body s) as [s1| |] eqn:B; try discriminate.
    + apply (IH s1 (S m)).
      rewrite (scan_body_code _ _ B), Hc, next_cursor_at; [done|lia|done].
    + intros [= <-]. by exists s, m.
Qed.

(** On well-formed hex, [abiFromBytecode] throws exactly when the decoded
    steps hold, one after the other, a PUSH of five bytes or more, EQ, a PUSH
    and JUMPI; the error is the "value out of range" of [zeroPad]. *)
Theorem raises_iff_wide_dispatch (input : string) (b : list Z) :
  ethers.arrayify input = Return b ->
  ((exists e, abiFromBytecode input = Raise e) <->
   exists j, reached b j /\ (3 <= j)%nat /\
     instr_op b j = opcodes.JUMPI /\
     isPush (instr_op b (j - 1)) = true /\
     instr_op b (j - 2) = opcodes.EQ /\
     5 <= pushWidth (instr_op b (j - 3))) /\
  (forall e, abiFromBytecode input = Raise e -> e = ValueOutOfRange).
Proof.
  intros Hb. rewrite abiFromBytecode_bytes, Hb. unfold abiFromBytes, scan_all.
  cbn [bytecode cursor_on]. split; [split|].
  - intros (e & He). unfold abi_of_scan in He.
    destruct (scan_loop _ _) as [s'|e'|] eqn:L; try discriminate.
    destruct (scan_loop_raise_at b _ (scan_start (cursor_on b 4)) 0 _ (cursor_on_at b 4) L)
      as (sj & j & Hr & Hc & Hbody).
    assert (Hall : forall i, (i < S j)%nat -> reached b i).
    { intros i Hi. apply (reached_le b i j); [lia|done]. }
    destruct (scan_body_raise_match _ _ Hbody) as (E4 & Hlen & _).
    rewrite Hc, next_cursor_at in E4, Hlen by (done || lia). cbn [snd] in E4, Hlen.
    destruct (rule4_dispatch b j Hall E4) as (_ & H2 & Hop & Hp & Heq & _ & _).
    assert (H3 : (3 <= j)%nat).
    { destruct (Nat.le_gt_cases 3 j) as [?|Hlt]; [done|].
      change (-4) with (- (4)) in Hlen. rewrite valueAt_short in Hlen by lia.
      simpl in Hlen. lia. }
    exists j. split_and!; try done.
    change (-4) with (- Z.of_nat 4) in Hlen. rewrite valueAt_immediate in Hlen by (done || lia).
    replace (S j - 4)%nat with (j - 3)%nat in Hlen by lia.
    unfold immediate in Hlen. rewrite <- (immediate_length b (j - 3)); [lia|].
    apply (reached_le b (S (j - 3)) j); [lia|done].
  - intros (j & Hr & H3 & Hop & Hp & Heq & Hw).
    pose proof (scan_all_fuel b) as Hfuel. unfold scan_all in Hfuel. cbn [bytecode cursor_on] in Hfuel.
    destruct (scan_loop _ _) as [s'|e'|] eqn:L; [|by exists e'|done].
    destruct (scan_loop_passes b _ (scan_start (cursor_on b 4)) _ 0 j (cursor_on_at b 4)
                ltac:(lia) Hr L) as (sj & s'' & Hc & Hbody).
    rewrite (scan_body_wide b j sj Hc Hr H3 Hop Hp Heq Hw) in Hbody. discriminate.
  - intros e He. unfold abi_of_scan in He.
    destruct (scan_loop _ _) as [s'|e'|] eqn:L; try discriminate.
    injection He as <-. by apply scan_loop_raise in L.
Qed.

Lemma raises_iff_wide_dispatch_witness :
  let b := [0x64; 0x01; 0x02; 0x03; 0x04; 0x05; 0x14; 0x60; 0x00; 0x57] in
  ((exists e, abiFromBytecode "0x64010203040514600057" = Raise e) <->
   exists j, reached b j /\ (3 <= j)%nat /\
     instr_op b j = opcodes.JUMPI /\
     isPush (instr_op b (j - 1)) = true /\
     instr_op b (j - 2) = opcodes.EQ /\
     5 <= pushWidth (instr_op b (j - 3))) /\
  (forall e, abiFromBytecode "0x64010203040514600057" = Raise e -> e = ValueOutOfRange).
Proof.
  apply (raises_iff_wide_dispatch "0x64010203040514600057").
  vm_compute. reflexivity.
Defined.

(** ** OpcodeTable, further *)

(** On an integer, the three functions agree with the table: the width of
    the operand lies between 0 and 32, it is positive exactly where [isPush]
    holds, the range PUSH1..PUSH32, where PUSHn has width n; [isLog] holds on
    LOG1..LOG4; and no opcode is both a PUSH and a LOG.  On what is no
    integer, [NaN] or the [undefined] that [at] hands back out of range, they
    disagree: [isPush] holds, written as it is with negated comparisons,
    while [pushWidth] is [NaN] and [isLog] does not hold. *)
Theorem opcode_table (instruction : jsval) :
  match instruction with
  | VNum op =>
      pushWidth_js instruction = VNum (pushWidth op) /\
      isPush_js instruction = isPush op /\
      isLog_js instruction = isLog op /\
      0 <= pushWidth op <= 32 /\
      (isPush op = true <-> 1 <= pushWidth op) /\
      (isPush op = true <-> opcodes.PUSH1 <= op <= opcodes.PUSH32) /\
      (isPush op = true -> pushWidth op = op - opcodes.PUSH1 + 1) /\
      (isPush op = false -> pushWidth op = 0) /\
      (isLog op = true <-> opcodes.LOG1 <= op <= opcodes.LOG4) /\
      (isPush op && isLog op = false)
  | VNaN | VUndefined =>
      pushWidth_js instruction = VNaN /\
      isPush_js instruction = true /\
      isLog_js instruction = false
  end.
Proof.
  destruct instruction as [op| |]; [|done|done].
  split; [apply pushWidth_js_num|]. split; [done|]. split; [done|].
  unfold pushWidth, isPush, isLog, opcodes.PUSH1, opcodes.PUSH32, opcodes.LOG1, opcodes.LOG4.
  destruct (op <? 96) eqn:H1; destruct (op >? 127) eqn:H2; simpl; split_and!; lia.
Qed.

Lemma opcode_table_width (op : Z) :
  (isPush op = true -> 1 <= pushWidth op) /\ (isPush op = false -> pushWidth op = 0).
Proof.
  unfold pushWidth, isPush, opcodes.PUSH1, opcodes.PUSH32.
  destruct (op <? 96) eqn:H1; destruct (op >? 127) eqn:H2; simpl; split; lia.
Qed.

(** ** BytecodeCursor, further *)

(** What [next()] keeps true of any cursor on bytes [b] with ring size [K]. *)
Lemma next_bounds (b : list Z) (K : Z) (c : BytecodeIter) :
  1 <= K ->
  c.(bytecode) = b /\ c.(posBufferSize) = K /\
  0 <= c.(nextStep) <= c.(nextPos) /\ c.(nextPos) <= Z.of_nat (length b) + 32 /\
  Z.of_nat (length c.(posBuffer)) <= K ->
  let c' := (next c).2 in
  c'.(bytecode) = b /\ c'.(posBufferSize) = K /\
  0 <= c'.(nextStep) <= c'.(nextPos) /\ c'.(nextPos) <= Z.of_nat (length b) + 32 /\
  Z.of_nat (length c'.(posBuffer)) <= K /\
  c.(nextStep) <= c'.(nextStep) <= c.(nextStep) + 1.
Proof.
  intros HK (Hb & Hs & Hn & Hp & Hr). destruct (hasMore c) eqn:Hm.
  - rewrite next_more by done. cbn [snd bytecode posBufferSize nextStep nextPos posBuffer].
    pose proof (pushWidth_range (byte_at (bytecode c) (nextPos c))) as Hw.
    unfold hasMore in Hm. rewrite Hb in Hm. split_and!; try done; try lia.
    rewrite length_app. unfold shift. destruct (_ >=? _) eqn:E.
    + rewrite length_drop. simpl. lia.
    + simpl. lia.
  - rewrite next_done by done. cbn [snd]. split_and!; try done; lia.
Qed.

(** Whatever number of times [next()] is called on a fresh cursor, past the
    end or not: the step count never exceeds the byte position nor the number
    of calls, the position overshoots the bytecode by 32 bytes at most, and the
    ring never holds more than [K] positions. *)
Theorem cursor_bounds (b : list Z) (K : Z) (n : nat) :
  1 <= K ->
  let c := (run_next n (cursor_on b K)).2 in
  c.(bytecode) = b /\
  0 <= c.(nextStep) <= c.(nextPos) /\
  c.(nextStep) <= Z.of_nat n /\
  c.(nextPos) <= Z.of_nat (length b) + 32 /\
  -1 <= step c <= pos c /\
  Z.of_nat (length c.(posBuffer)) <= K.
Proof.
  intros HK. cbv zeta.
  assert (H : let c := (run_next n (cursor_on b K)).2 in
              (c.(bytecode) = b /\ c.(posBufferSize) = K /\
               0 <= c.(nextStep) <= c.(nextPos) /\ c.(nextPos) <= Z.of_nat (length b) + 32 /\
               Z.of_nat (length c.(posBuffer)) <= K) /\ c.(nextStep) <= Z.of_nat n).
  { induction n as [|n [IH1 IH2]]; [simpl; split_and!; (done || lia)|].
    simpl run_next. destruct (run_next n (cursor_on b K)) as [ops c] eqn:R.
    cbn [snd] in IH1, IH2. pose proof (next_bounds b K c HK IH1) as Hn.
    destruct (next c) as [op c']. cbn [snd] in *. split; [tauto|lia]. }
  cbv zeta in H. unfold step, pos. destruct H as ((? & ? & ? & ? & ?) & ?).
  split_and!; try done; lia.
Qed.

Lemma cursor_bounds_witness :
  let c := (run_next 9 (cursor_on [0x60; 0x01; 0x7f; 0xaa] 2)).2 in
  c.(bytecode) = [0x60; 0x01; 0x7f; 0xaa] /\
  0 <= c.(nextStep) <= c.(nextPos) /\
  c.(nextStep) <= Z.of_nat 9 /\
  c.(nextPos) <= Z.of_nat (length [0x60; 0x01; 0x7f; 0xaa]) + 32 /\
  -1 <= step c <= pos c /\
  Z.of_nat (length c.(posBuffer)) <= 2.
Proof. apply (cursor_bounds [0x60; 0x01; 0x7f; 0xaa] 2 9). lia. Defined.

(** Once the bytecode is used up, [next()] returns STOP however often it is
    called and changes nothing of the cursor. *)
Theorem next_past_end (c : BytecodeIter) (j : nat) :
  hasMore c = false ->
  run_next j c = (replicate j opcodes.STOP, c).
Proof.
  intros Hm. induction j as [|j IH]; [done|].
  simpl run_next. rewrite IH, next_done by done.
  f_equal. change [opcodes.STOP] with (replicate 1 opcodes.STOP).
  rewrite <- replicate_add. f_equal. lia.
Qed.

Lemma next_past_end_witness :
  run_next 3 (cursor_at [0x60; 0x01] 4 1) = (replicate 3 opcodes.STOP, cursor_at [0x60; 0x01] 4 1).
Proof. apply (next_past_end (cursor_at [0x60; 0x01] 4 1) 3). reflexivity. Defined.

(** After a decoded step, [step()] is its ordinal and [pos()] is its last
    byte: its start byte plus the width of its operand. *)
Theorem pos_is_last_byte (b : list Z) (K : Z) (m : nat) :
  1 <= K -> (forall i, (i < S m)%nat -> reached b i) ->
  let c := (run_next (S m) (cursor_on b K)).2 in
  step c = Z.of_nat m /\
  pos c = instr_start b m + pushWidth (instr_op b m) /\
  (isPush (instr_op b m) = false -> pos c = instr_start b m).
Proof.
  intros HK Hr. rewrite run_next_state by done. cbn [snd].
  unfold step, pos, cursor_at. cbn [nextStep nextPos instr_start]. fold (instr_op b m).
  split_and!; [lia|lia|]. intros Hp.
  destruct (opcode_table_width (instr_op b m)) as [_ H0]. rewrite H0 by done. lia.
Qed.

Lemma pos_is_last_byte_witness :
  let b := [0x63; 0xaa; 0xbb; 0xcc; 0xdd; 0x00] in
  let c := (run_next 1 (cursor_on b 4)).2 in
  step c = Z.of_nat 0 /\
  pos c = instr_start b 0 + pushWidth (instr_op b 0) /\
  (isPush (instr_op b 0) = false -> pos c = instr_start b 0).
Proof.
  apply (pos_is_last_byte [0x63; 0xaa; 0xbb; 0xcc; 0xdd; 0x00] 4 0); [lia|].
  intros i Hi. assert (i = 0%nat) as -> by lia. unfold reached. vm_compute. reflexivity.
Defined.

Lemma js_slice_take_drop (a : list Z) (p w : Z) :
  0 <= p <= Z.of_nat (length a) -> 0 <= w ->
  js_slice a (VNum p) (VNum (p + w)) = take (Z.to_nat w) (drop (Z.to_nat p) a).
Proof.
  intros Hp Hw. unfold js_slice. cbn [js_to_integer].
  replace (p <? 0) with false by lia. replace (p + w <? 0) with false by lia.
  replace (Z.min p (Z.of_nat (length a))) with p by lia.
  destruct (Z.le_gt_cases (p + w) (Z.of_nat (length a))) as [Hle|Hgt].
  - by replace (Z.to_nat (Z.min (p + w) (Z.of_nat (length a)) - p)) with (Z.to_nat w) by lia.
  - replace (Z.min (p + w) (Z.of_nat (length a))) with (Z.of_nat (length a)) by lia.
    rewrite !take_ge; [done|rewrite length_drop; lia|rewrite length_drop; lia].
Qed.

(** After a decoded step, [value()] is the operand of that step: the bytes
    after its opcode, as many as the width of the opcode, or what is left of
    the bytecode when the operand is cut short; nothing for an opcode that is
    no PUSH. *)
Theorem value_is_operand (b : list Z) (K : Z) (m : nat) :
  1 <= K -> (forall i, (i < S m)%nat -> reached b i) ->
  let c := (run_next (S m) (cursor_on b K)).2 in
  value c = take (Z.to_nat (pushWidth (instr_op b m)))
              (drop (Z.to_nat (instr_start b m + 1)) b) /\
  Z.of_nat (length (value c)) =
    Z.min (pushWidth (instr_op b m)) (Z.of_nat (length b) - instr_start b m - 1) /\
  (isPush (instr_op b m) = false -> value c = []).
Proof.
  intros HK Hr. rewrite run_next_state by done. cbn [snd].
  pose proof (Hr m ltac:(lia)) as Hm. unfold reached in Hm.
  pose proof (instr_start_nonneg b m) as Hnn.
  pose proof (pushWidth_range (instr_op b m)) as Hw.
  assert (Hv : value (cursor_at b K (S m)) =
               take (Z.to_nat (pushWidth (instr_op b m)))
                 (drop (Z.to_nat (instr_start b m + 1)) b)).
  { unfold value. change (-1) with (- Z.of_nat 1).
    rewrite valueAt_immediate by (done || lia).
    replace (S m - 1)%nat with m by lia. unfold immediate.
    apply js_slice_take_drop; lia. }
  rewrite Hv. split_and!; [done| |].
  - rewrite length_take, length_drop. lia.
  - intros Hp. destruct (opcode_table_width (instr_op b m)) as [_ H0].
    by rewrite H0 by done.
Qed.

Lemma value_is_operand_witness :
  let b := [0x00; 0x62; 0xaa; 0xbb] in
  let c := (run_next 2 (cursor_on b 4)).2 in
  value c = take (Z.to_nat (pushWidth (instr_op b 1)))
              (drop (Z.to_nat (instr_start b 1 + 1)) b) /\
  Z.of_nat (length (value c)) =
    Z.min (pushWidth (instr_op b 1)) (Z.of_nat (length b) - instr_start b 1 - 1) /\
  (isPush (instr_op b 1) = false -> value c = []).
Proof.
  apply (value_is_operand [0x00; 0x62; 0xaa; 0xbb] 4 1); [lia|].
  intros i Hi. unfold reached.
  do 2 (destruct i as [|i]; [vm_compute; reflexivity|]). lia.
Defined.

(** A relative lookup further back than the ring reaches (before the first
    [next()], any relative lookup) finds no position: [at] gives [undefined],
    which [isPush] takes for a PUSH, and [valueAt] gives no bytes. *)
Theorem lookup_beyond_ring (b : list Z) (K : Z) (m : nat) (k : Z) :
  1 <= K -> (forall i, (i < m)%nat -> reached b i) ->
  Z.of_nat (Nat.min m (Z.to_nat K)) < k ->
  let c := (run_next m (cursor_on b K)).2 in
  at_ c (- k) = VUndefined /\
  isPush_js (at_ c (- k)) = true /\
  pushWidth_js (at_ c (- k)) = VNaN /\
  valueAt c (- k) = [].
Proof.
  intros HK Hr Hk. rewrite run_next_state by done. cbn [snd].
  rewrite at_short, valueAt_short by done. done.
Qed.

Lemma lookup_beyond_ring_witness :
  let c := (run_next 0 (cursor_on [0x60; 0x01] 4)).2 in
  at_ c (- (1)) = VUndefined /\
  isPush_js (at_ c (- (1))) = true /\
  pushWidth_js (at_ c (- (1))) = VNaN /\
  valueAt c (- (1)) = [].
Proof.
  apply (lookup_beyond_ring [0x60; 0x01] 4 0 1); [lia| |simpl; lia].
  intros i Hi. lia.
Defined.

(** ** The extractor, further *)

(** The loop always ends: every turn moves the cursor forward, so the turns
    are no more than the bytes, and a result or an error comes out for every
    input string. *)
Theorem extract_terminates (input : string) :
  (exists out, abiFromBytecode input = Return out) \/
  (exists e, abiFromBytecode input = Raise e).
Proof.
  pose proof (abiFromBytecode_ends input) as H.
  destruct (abiFromBytecode input) as [out|e|]; [left; by exists out|right; by exists e|done].
Qed.

(** Each turn of the loop adds one entry at most: the output has no more
    entries than steps were decoded, hence no more than the bytecode has
    bytes. *)
Theorem entries_bounded (input : string) (out : ABI) :
  abiFromBytecode input = Return out ->
  exists b, ethers.arrayify input = Return b /\ (length out <= length b)%nat.
Proof.
  intros Hout.
  destruct (abiFromBytecode_trace _ _ Hout) as (b & s & m & Hb & _ & Hr & _ & Ht & ->).
  exists b. split; [done|]. pose proof (tr_count _ _ _ Ht) as Hc.
  rewrite length_app. unfold functions_of. rewrite !length_map.
  destruct m as [|m]; [lia|]. pose proof (reached_lt_length b m (Hr m ltac:(lia))). lia.
Qed.

Lemma entries_bounded_witness :
  exists b, ethers.arrayify "0x8061beef1460375700" = Return b /\
            (length [ABIFunction "0x0000beef" true] <= length b)%nat.
Proof.
  apply (entries_bounded "0x8061beef1460375700" [ABIFunction "0x0000beef" true]).
  vm_compute. reflexivity.
Defined.

(** The [0x] prefix is optional: a string that does not begin with [0x]
    is read as the same string with [0x] put before it. *)
Theorem prefix_optional (hex : string) :
  substring 0 2 hex <> "0x"%string ->
  new_BytecodeIter hex (Some 4) = new_BytecodeIter (String "0" (String "x" hex)) (Some 4) /\
  abiFromBytecode hex = abiFromBytecode (String "0" (String "x" hex)).
Proof.
  intros Hne.
  assert (E : ethers.arrayify hex = ethers.arrayify (String "0" (String "x" hex))).
  { unfold ethers.arrayify.
    replace (substring 0 2 (String "0" (String "x" hex))) with "0x"%string
      by (cbn [substring]; by destruct hex).
    apply String.eqb_neq in Hne. rewrite Hne. reflexivity. }
  unfold abiFromBytecode, new_BytecodeIter. by rewrite E.
Qed.

Lemma prefix_optional_witness :
  new_BytecodeIter "8061beef1460375700" (Some 4) =
    new_BytecodeIter "0x8061beef1460375700" (Some 4) /\
  abiFromBytecode "8061beef1460375700" = abiFromBytecode "0x8061beef1460375700".
Proof. apply (prefix_optional "8061beef1460375700"). discriminate. Defined.

(** The dispatcher entry [DUP1 PUSHk <selector> EQ PUSH1 <dest> JUMPI], for a
    selector of one to four bytes, is recovered as one function with that
    selector padded to four bytes, payable for want of a guarded JUMPDEST. *)
Theorem dispatcher_recovered (selector : list Z) (dest : Z) :
  (1 <= length selector <= 4)%nat ->
  Forall (fun z => 0 <= z < 256) selector -> 0 <= dest < 256 ->
  abiFromBytecode
    (ethers.hexlify
       ([opcodes.DUP1; opcodes.PUSH1 + Z.of_nat (length selector) - 1] ++ selector ++
        [opcodes.EQ; opcodes.PUSH1; dest; opcodes.JUMPI])) =
  Return [ABIFunction
            (ethers.hexlify (replicate (4 - length selector) 0 ++ selector)) true].
Proof.
  intros Hlen Hsel Hd. rewrite abiFromBytecode_hexlify.
  2:{ apply Forall_app. split.
      - repeat constructor; unfold opcodes.DUP1, opcodes.PUSH1; lia.
      - apply Forall_app. split; [done|].
        repeat constructor; unfold opcodes.EQ, opcodes.PUSH1, opcodes.JUMPI; lia. }
  clear Hsel Hd.
  assert (Hpay : forall d, js_not (num_get ∅ d) = true).
  { intros [n| |]; simpl; [by rewrite lookup_empty|done|done]. }
  destruct selector as [|z1 [|z2 [|z3 [|z4 [|z5 rest]]]]]; simpl in Hlen; try lia;
    unfold abiFromBytes, abi_of_scan;
    match goal with
    | |- context [scan_all ?c] =>
        let r := eval cbv -[ethers.hexlify parseInt16] in (scan_all c) in
        change (scan_all c) with r
    end;
    unfold functions_of; cbn [jumps notPayable abi map fst app obj_get String.eqb];
    rewrite ?String.eqb_refl, Hpay; reflexivity.
Qed.

Lemma dispatcher_recovered_witness :
  abiFromBytecode
    (ethers.hexlify
       ([opcodes.DUP1; opcodes.PUSH1 + Z.of_nat (length [0xbe; 0xef]) - 1] ++ [0xbe; 0xef] ++
        [opcodes.EQ; opcodes.PUSH1; 0x37; opcodes.JUMPI])) =
  Return [ABIFunction
            (ethers.hexlify (replicate (4 - length [0xbe; 0xef]) 0 ++ [0xbe; 0xef])) true].
Proof.
  apply (dispatcher_recovered [0xbe; 0xef] 0x37); [simpl; lia| |lia].
  repeat (constructor; [lia|]). constructor.
Defined.

Lemma short_window_witness :
  let b := [0x14; 0x60; 0x37; 0x57] in
  exists s', scan_body (scan_start (cursor_on b 4)) = Return s' /\
             ((0 < 2)%nat -> s'.(jumps) = (scan_start (cursor_on b 4)).(jumps)).
Proof.
  apply (short_window [0x14; 0x60; 0x37; 0x57] (scan_start (cursor_on [0x14; 0x60; 0x37; 0x57] 4)) 0).
  - reflexivity.
  - unfold reached. vm_compute. reflexivity.
  - lia.
Defined.

(** ** The loaders that combine other loaders *)

Lemma length_pos_nonempty {A : Type} (r : list A) : (0 <? length r)%nat = true <-> r <> [].
Proof. destruct r; simpl; split; (done || lia || discriminate). Qed.

Lemma length_zero_empty {A : Type} (r : list A) : (0 <? length r)%nat = false <-> r = [].
Proof. destruct r; simpl; split; (done || lia || discriminate). Qed.

Section loaders_properties.
Context {E : Type} (message : E -> string) (status : E -> jsval) {Item : Type}.

Local Abbreviation ABILoader := (@loaders.ABILoader E Item).
Local Abbreviation SignatureLookup := (@loaders.SignatureLookup E).
Local Abbreviation loadABI_from := (loaders.loadABI_from message).
Local Abbreviation getContract_from := (loaders.getContract_from message status).
Local Abbreviation passed_over := (loaders.passed_over status).
Local Abbreviation Fulfilled := loaders.Fulfilled.
Local Abbreviation Rejected := loaders.Rejected.

(** No ABI from a loader: it answered with an empty list. *)
Local Abbreviation no_abi address :=
  (fun l : ABILoader => loaders.loadABI l address = Fulfilled []).

Lemma loadABI_from_skip (pre rest : list ABILoader) (address : string) :
  Forall (no_abi address) pre ->
  loadABI_from (pre ++ rest) address = loadABI_from rest address.
Proof. induction 1 as [|l pre Hl _ IH]; [done|]. simpl. by rewrite Hl. Qed.

Lemma getContract_from_skip (pre rest : list ABILoader) (address : string) :
  Forall (passed_over address) pre ->
  getContract_from (pre ++ rest) address = getContract_from rest address.
Proof.
  induction 1 as [|l pre Hl _ IH]; [done|]. simpl.
  destruct Hl as [(r & -> & Hr)|(err & -> & Hs)].
  - by rewrite Hr.
  - by rewrite Hs.
Qed.

(** [MultiABILoader.loadABI] answers with the list of the first loader that
    has a non-empty one, all loaders before it having answered with an empty
    list; it answers with the empty list exactly when every loader did. *)
Theorem loadABI_first_nonempty (this : loaders.MultiABILoader) (address : string)
    (r : list Item) :
  loaders.MultiABILoader_loadABI message this address = Fulfilled r <->
  (r = [] /\ Forall (no_abi address) (loaders.loaders this)) \/
  (r <> [] /\ exists pre (l : ABILoader) post,
     loaders.loaders this = pre ++ l :: post /\
     Forall (no_abi address) pre /\ loaders.loadABI l address = Fulfilled r).
Proof.
  unfold loaders.MultiABILoader_loadABI. destruct this as [ls]. cbn [loaders.loaders]. split.
  - induction ls as [|l ls IH]; simpl.
    + intros [= <-]. left. by split.
    + destruct (loaders.loadABI l address) as [r0|err] eqn:Hl; [|discriminate].
      destruct (0 <? length r0)%nat eqn:Hn.
      * intros [= <-]. right. split; [by apply length_pos_nonempty|].
        by exists [], l, ls.
      * apply length_zero_empty in Hn as ->. intros H.
        destruct (IH H) as [[-> Hall]|(Hne & pre & l' & post & -> & Hpre & Hl')].
        -- left. split; [done|]. by constructor.
        -- right. split; [done|]. exists (l :: pre), l', post.
           split; [done|]. split; [by constructor|done].
  - intros [[-> Hall]|(Hne & pre & l & post & -> & Hpre & Hl)].
    + induction Hall as [|l ls Hl _ IH]; [done|]. simpl. by rewrite Hl.
    + rewrite loadABI_from_skip by done. simpl. rewrite Hl.
      apply length_pos_nonempty in Hne. by rewrite Hne.
Qed.

(** [MultiABILoader.loadABI] fails exactly when a loader fails, whatever its
    status, 404 included, after loaders that all answered with an empty list;
    the error names that loader and the address, has the loader's error as its
    cause and its message after a fixed prefix. *)
Theorem loadABI_rejects (this : loaders.MultiABILoader) (address : string)
    (err : loaders.MultiABILoaderError) :
  loaders.MultiABILoader_loadABI message this address = Rejected err <->
  exists pre (l : ABILoader) post e,
    loaders.loaders this = pre ++ l :: post /\
    Forall (no_abi address) pre /\ loaders.loadABI l address = Rejected e /\
    err = loaders.mkMultiABILoaderError
            ("MultiABILoader loadABI error: " +:+ message e) l address e.
Proof.
  unfold loaders.MultiABILoader_loadABI. destruct this as [ls]. cbn [loaders.loaders]. split.
  - induction ls as [|l ls IH]; simpl; [discriminate|].
    destruct (loaders.loadABI l address) as [r0|e] eqn:Hl.
    + destruct (0 <? length r0)%nat eqn:Hn; [discriminate|].
      apply length_zero_empty in Hn as ->. intros H.
      destruct (IH H) as (pre & l' & post & e & -> & Hpre & Hl' & ->).
      exists (l :: pre), l', post, e. split; [done|]. split; [by constructor|done].
    + intros [= <-]. by exists [], l, ls, e.
  - intros (pre & l & post & e & -> & Hpre & Hl & ->).
    rewrite loadABI_from_skip by done. simpl. by rewrite Hl.
Qed.

(** [MultiABILoader.getContract] answers with the result of the first loader
    that has ABI entries, all loaders before it having been passed over (an
    empty ABI, or a failure with status 404); when every loader is passed
    over it answers with the empty result, whose [ok] is false. *)
Theorem getContract_first_nonempty (this : loaders.MultiABILoader) (address : string)
    (r : loaders.ContractResult) :
  loaders.MultiABILoader_getContract message status this address = Fulfilled r <->
  (r = loaders.emptyContractResult /\ Forall (passed_over address) (loaders.loaders this)) \/
  (loaders.abi r <> [] /\ exists pre (l : ABILoader) post,
     loaders.loaders this = pre ++ l :: post /\
     Forall (passed_over address) pre /\ loaders.getContract l address = Fulfilled r).
Proof.
  unfold loaders.MultiABILoader_getContract. destruct this as [ls]. cbn [loaders.loaders]. split.
  - induction ls as [|l ls IH]; simpl.
    + intros [= <-]. left. by split.
    + assert (Hrest : passed_over address l ->
                getContract_from ls address = Fulfilled r ->
                (r = loaders.emptyContractResult /\ Forall (passed_over address) (l :: ls)) \/
                (loaders.abi r <> [] /\ exists pre (l0 : ABILoader) post,
                   l :: ls = pre ++ l0 :: post /\
                   Forall (passed_over address) pre /\
                   loaders.getContract l0 address = Fulfilled r)).
      { intros Hp H.
        destruct (IH H) as [[-> Hall]|(Hne & pre & l' & post & -> & Hpre & Hl')].
        - left. split; [done|]. by constructor.
        - right. split; [done|]. exists (l :: pre), l', post.
          split; [done|]. split; [by constructor|done]. }
      destruct (loaders.getContract l address) as [r0|e] eqn:Hl.
      * destruct (0 <? length (loaders.abi r0))%nat eqn:Hn.
        -- intros [= <-]. right. split; [by apply length_pos_nonempty|].
           by exists [], l, ls.
        -- apply length_zero_empty in Hn. apply Hrest. left. by exists r0.
      * destruct (js_seq (status e) (VNum 404)) eqn:Hs; [|discriminate].
        apply js_seq_num in Hs. apply Hrest. right. by exists e.
  - intros [[-> Hall]|(Hne & pre & l & post & -> & Hpre & Hl)].
    + rewrite <- (app_nil_r ls). by rewrite getContract_from_skip.
    + rewrite getContract_from_skip by done. simpl. rewrite Hl.
      apply length_pos_nonempty in Hne. by rewrite Hne.
Qed.

(** [MultiABILoader.getContract] fails exactly when a loader fails with a
    status other than 404 after loaders that were all passed over; the error
    names that loader and the address and has the loader's error as cause. *)
Theorem getContract_rejects (this : loaders.MultiABILoader) (address : string)
    (err : loaders.MultiABILoaderError) :
  loaders.MultiABILoader_getContract message status this address = Rejected err <->
  exists pre (l : ABILoader) post e,
    loaders.loaders this = pre ++ l :: post /\
    Forall (passed_over address) pre /\
    loaders.getContract l address = Rejected e /\ status e <> VNum 404 /\
    err = loaders.mkMultiABILoaderError
            ("MultiABILoader getContract error: " +:+ message e) l address e.
Proof.
  unfold loaders.MultiABILoader_getContract. destruct this as [ls]. cbn [loaders.loaders]. split.
  - induction ls as [|l ls IH]; simpl; [discriminate|].
    assert (Hrest : passed_over address l ->
              getContract_from ls address = Rejected err ->
              exists pre (l0 : ABILoader) post e,
                l :: ls = pre ++ l0 :: post /\
                Forall (passed_over address) pre /\
                loaders.getContract l0 address = Rejected e /\ status e <> VNum 404 /\
                err = loaders.mkMultiABILoaderError
                        ("MultiABILoader getContract error: " +:+ message e) l0 address e).
    { intros Hp H. destruct (IH H) as (pre & l' & post & e & -> & Hpre & Hl' & Hs & ->).
      exists (l :: pre), l', post, e. split; [done|]. split; [by constructor|done]. }
    destruct (loaders.getContract l address) as [r0|e] eqn:Hl.
    + destruct (0 <? length (loaders.abi r0))%nat eqn:Hn; [discriminate|].
      apply length_zero_empty in Hn. apply Hrest. left. by exists r0.
    + destruct (js_seq (status e) (VNum 404)) eqn:Hs.
      * apply js_seq_num in Hs. apply Hrest. right. by exists e.
      * intros [= <-]. exists [], l, ls, e. split_and!; try done.
        intros Heq. rewrite Heq in Hs. discriminate.
  - intros (pre & l & post & e & -> & Hpre & Hl & Hs & ->).
    rewrite getContract_from_skip by done. simpl. rewrite Hl.
    destruct (js_seq (status e) (VNum 404)) eqn:Hs'; [|done].
    apply js_seq_num in Hs'. done.
Qed.

(** The two methods of [MultiABILoader] treat a loader that fails with status
    404 differently: [getContract] goes on to the loaders after it, [loadABI]
    stops with an error. *)
Theorem not_found_skipped_or_fatal (l : ABILoader) (rest : list ABILoader)
    (address : string) (e : E) :
  loaders.getContract l address = Rejected e ->
  loaders.loadABI l address = Rejected e ->
  status e = VNum 404 ->
  loaders.MultiABILoader_getContract message status (loaders.mkMultiABILoader (l :: rest)) address
    = loaders.MultiABILoader_getContract message status (loaders.mkMultiABILoader rest) address /\
  loaders.MultiABILoader_loadABI message (loaders.mkMultiABILoader (l :: rest)) address
    = Rejected (loaders.mkMultiABILoaderError
                  ("MultiABILoader loadABI error: " +:+ message e) l address e).
Proof.
  intros Hg Hl Hs. unfold loaders.MultiABILoader_getContract, loaders.MultiABILoader_loadABI.
  simpl. by rewrite Hg, Hl, Hs.
Qed.

End loaders_properties.

Section lookup_properties.
Context {E : Type}.

Local Abbreviation SignatureLookup := (@loaders.SignatureLookup E).
Local Abbreviation Fulfilled := loaders.Fulfilled.
Local Abbreviation Rejected := loaders.Rejected.

(** No signature from a lookup: it answered with an empty list. *)
Local Abbreviation no_function selector :=
  (fun l : SignatureLookup => loaders.loadFunctions l selector = Fulfilled []).
Local Abbreviation no_event hash :=
  (fun l : SignatureLookup => loaders.loadEvents l hash = Fulfilled []).

(** Asking the lookups of two lists in a row: the second list is asked only
    when the first has nothing. *)
Lemma loadFunctions_from_app (l1 l2 : list SignatureLookup) (selector : string) :
  loaders.loadFunctions_from (l1 ++ l2) selector =
  match loaders.loadFunctions_from l1 selector with
  | loaders.Fulfilled [] => loaders.loadFunctions_from l2 selector
  | r => r
  end.
Proof.
  induction l1 as [|l l1 IH]; [done|]. simpl.
  destruct (loaders.loadFunctions l selector) as [[|x r]|e]; simpl; done.
Qed.

Lemma loadEvents_from_app (l1 l2 : list SignatureLookup) (hash : string) :
  loaders.loadEvents_from (l1 ++ l2) hash =
  match loaders.loadEvents_from l1 hash with
  | loaders.Fulfilled [] => loaders.loadEvents_from l2 hash
  | r => r
  end.
Proof.
  induction l1 as [|l l1 IH]; [done|]. simpl.
  destruct (loaders.loadEvents l hash) as [[|x r]|e]; simpl; done.
Qed.

(** [MultiSignatureLookup.loadFunctions] answers with the signatures of the
    first lookup that has any, the lookups before it having answered with
    none, and with the empty list exactly when every lookup did;
    [loadEvents] does the same with the events. *)
Theorem lookup_first_nonempty (this : loaders.MultiSignatureLookup) (key : string)
    (r : list string) :
  (loaders.MultiSignatureLookup_loadFunctions this key = Fulfilled r <->
   (r = [] /\ Forall (no_function key) (loaders.lookups this)) \/
   (r <> [] /\ exists pre (l : SignatureLookup) post,
      loaders.lookups this = pre ++ l :: post /\
      Forall (no_function key) pre /\ loaders.loadFunctions l key = Fulfilled r)) /\
  (loaders.MultiSignatureLookup_loadEvents this key = Fulfilled r <->
   (r = [] /\ Forall (no_event key) (loaders.lookups this)) \/
   (r <> [] /\ exists pre (l : SignatureLookup) post,
      loaders.lookups this = pre ++ l :: post /\
      Forall (no_event key) pre /\ loaders.loadEvents l key = Fulfilled r)).
Proof.
  cbv beta delta [loaders.MultiSignatureLookup_loadFunctions
                  loaders.MultiSignatureLookup_loadEvents].
  destruct this as [ls]. cbn [loaders.lookups]. split; split.
  - induction ls as [|l ls IH]; simpl.
    + intros [= <-]. left. by split.
    + destruct (loaders.loadFunctions l key) as [r0|err] eqn:Hl; [|discriminate].
      destruct (0 <? length r0)%nat eqn:Hn.
      * intros [= <-]. right. split; [by apply length_pos_nonempty|]. by exists [], l, ls.
      * apply length_zero_empty in Hn as ->. intros H.
        destruct (IH H) as [[-> Hall]|(Hne & pre & l' & post & -> & Hpre & Hl')].
        -- left. split; [done|]. by constructor.
        -- right. split; [done|]. exists (l :: pre), l', post.
           split; [done|]. split; [by constructor|done].
  - intros [[-> Hall]|(Hne & pre & l & post & -> & Hpre & Hl)].
    + induction Hall as [|l ls Hl _ IH]; [done|]. simpl. by rewrite Hl.
    + induction Hpre as [|l0 pre Hl0 _ IH]; simpl.
      * rewrite Hl. apply length_pos_nonempty in Hne. by rewrite Hne.
      * by rewrite Hl0.
  - induction ls as [|l ls IH]; simpl.
    + intros [= <-]. left. by split.
    + destruct (loaders.loadEvents l key) as [r0|err] eqn:Hl; [|discriminate].
      destruct (0 <? length r0)%nat eqn:Hn.
      * intros [= <-]. right. split; [by apply length_pos_nonempty|]. by exists [], l, ls.
      * apply length_zero_empty in Hn as ->. intros H.
        destruct (IH H) as [[-> Hall]|(Hne & pre & l' & post & -> & Hpre & Hl')].
        -- left. split; [done|]. by constructor.
        -- right. split; [done|]. exists (l :: pre), l', post.
           split; [done|]. split; [by constructor|done].
  - intros [[-> Hall]|(Hne & pre & l & post & -> & Hpre & Hl)].
    + induction Hall as [|l ls Hl _ IH]; [done|]. simpl. by rewrite Hl.
    + induction Hpre as [|l0 pre Hl0 _ IH]; simpl.
      * rewrite Hl. apply length_pos_nonempty in Hne. by rewrite Hne.
      * by rewrite Hl0.
Qed.

(** [MultiSignatureLookup] does not catch: it fails exactly when a lookup
    fails after lookups that all answered with none, and with that lookup's
    own error, unchanged; the lookups after it play no part. *)
Theorem lookup_error_unchanged (this : loaders.MultiSignatureLookup) (key : string)
    (err : E) :
  (loaders.MultiSignatureLookup_loadFunctions this key = Rejected err <->
   exists pre (l : SignatureLookup) post,
     loaders.lookups this = pre ++ l :: post /\
     Forall (no_function key) pre /\ loaders.loadFunctions l key = Rejected err) /\
  (loaders.MultiSignatureLookup_loadEvents this key = Rejected err <->
   exists pre (l : SignatureLookup) post,
     loaders.lookups this = pre ++ l :: post /\
     Forall (no_event key) pre /\ loaders.loadEvents l key = Rejected err).
Proof.
  cbv beta delta [loaders.MultiSignatureLookup_loadFunctions
                  loaders.MultiSignatureLookup_loadEvents].
  destruct this as [ls]. cbn [loaders.lookups]. split; split.
  - induction ls as [|l ls IH]; simpl; [discriminate|].
    destruct (loaders.loadFunctions l key) as [r0|e] eqn:Hl.
    + destruct (0 <? length r0)%nat eqn:Hn; [discriminate|].
      apply length_zero_empty in Hn as ->. intros H.
      destruct (IH H) as (pre & l' & post & -> & Hpre & Hl').
      exists (l :: pre), l', post. split; [done|]. split; [by constructor|done].
    + intros [= <-]. by exists [], l, ls.
  - intros (pre & l & post & -> & Hpre & Hl).
    induction Hpre as [|l0 pre Hl0 _ IH]; simpl; [by rewrite Hl|by rewrite Hl0].
  - induction ls as [|l ls IH]; simpl; [discriminate|].
    destruct (loaders.loadEvents l key) as [r0|e] eqn:Hl.
    + destruct (0 <? length r0)%nat eqn:Hn; [discriminate|].
      apply length_zero_empty in Hn as ->. intros H.
      destruct (IH H) as (pre & l' & post & -> & Hpre & Hl').
      exists (l :: pre), l', post. split; [done|]. split; [by constructor|done].
    + intros [= <-]. by exists [], l, ls.
  - intros (pre & l & post & -> & Hpre & Hl).
    induction Hpre as [|l0 pre Hl0 _ IH]; simpl; [by rewrite Hl|by rewrite Hl0].
Qed.

(** A [MultiSignatureLookup] over [MultiSignatureLookup]s answers as one
    [MultiSignatureLookup] over all their lookups, in order: nesting changes
    nothing, for results and for errors alike. *)
Theorem lookup_flatten (nested : list (@loaders.MultiSignatureLookup E)) (key : string) :
  loaders.MultiSignatureLookup_loadFunctions
    (loaders.mkMultiSignatureLookup (map loaders.as_lookup nested)) key =
  loaders.MultiSignatureLookup_loadFunctions
    (loaders.mkMultiSignatureLookup (concat (map loaders.lookups nested))) key /\
  loaders.MultiSignatureLookup_loadEvents
    (loaders.mkMultiSignatureLookup (map loaders.as_lookup nested)) key =
  loaders.MultiSignatureLookup_loadEvents
    (loaders.mkMultiSignatureLookup (concat (map loaders.lookups nested))) key.
Proof.
  cbv beta delta [loaders.MultiSignatureLookup_loadFunctions
                  loaders.MultiSignatureLookup_loadEvents].
  cbn [loaders.lookups]. induction nested as [|m nested [IH1 IH2]]; [done|].
  cbn [map concat]. rewrite loadFunctions_from_app, loadEvents_from_app.
  cbn [loaders.loadFunctions_from loaders.loadEvents_from loaders.as_lookup
       loaders.loadFunctions loaders.loadEvents].
  cbv beta delta [loaders.MultiSignatureLookup_loadFunctions
                  loaders.MultiSignatureLookup_loadEvents].
  rewrite <- IH1, <- IH2. split.
  - by destruct (loaders.loadFunctions_from (loaders.lookups m) key) as [[|x r]|e].
  - by destruct (loaders.loadEvents_from (loaders.lookups m) key) as [[|x r]|e].
Qed.

End lookup_properties.

(** A loader that knows no contract and answers every request with status
    404, for an error type that is just the status. *)
Lemma not_found_skipped_or_fatal_witness :
  let message := fun _ : Z => "Not Found"%string in
  let status := fun z : Z => VNum z in
  let l : @loaders.ABILoader Z unit :=
    loaders.mkABILoader (fun _ => loaders.Rejected 404) (fun _ => loaders.Rejected 404) in
  loaders.MultiABILoader_getContract message status (loaders.mkMultiABILoader [l]) "0xabc"
    = loaders.MultiABILoader_getContract message status (loaders.mkMultiABILoader []) "0xabc" /\
  loaders.MultiABILoader_loadABI message (loaders.mkMultiABILoader [l]) "0xabc"
    = loaders.Rejected (loaders.mkMultiABILoaderError
                  ("MultiABILoader loadABI error: " +:+ message 404) l "0xabc" 404).
Proof.
  apply (not_found_skipped_or_fatal (fun _ : Z => "Not Found"%string) (fun z : Z => VNum z)
           (loaders.mkABILoader (fun _ => loaders.Rejected 404) (fun _ => loaders.Rejected 404))
           [] "0xabc" 404); reflexivity.
Defined.

(** ** A dispatch table is recovered entry by entry *)

(** A turn of the loop on an opcode that none of the rules looks for. *)
Lemma scan_body_plain (b : list Z) (m : nat) (s : scan) :
  s.(code) = cursor_at b 4 m -> reached b m ->
  instr_op b m <> opcodes.PUSH32 -> isLog (instr_op b m) = false ->
  instr_op b m <> opcodes.JUMPDEST -> instr_op b m <> opcodes.JUMPI ->
  scan_body s =
    Return (mkScan s.(abi) s.(jumps) s.(dests) s.(notPayable) s.(lastPush32)
              (cursor_at b 4 (S m))).
Proof.
  intros Hc Hr H1 H2 H3 H4.
  assert (Hall : forall i, (i < S m)%nat -> reached b i).
  { intros i Hi. apply (reached_le b i m); [lia|done]. }
  unfold scan_body. rewrite Hc, next_cursor_at by (done || lia).
  replace (instr_op b m =? opcodes.PUSH32) with false by lia.
  rewrite H2. cbn [andb].
  replace (instr_op b m =? opcodes.JUMPDEST) with false by lia.
  change (-1) with (- (1)). rewrite (at_ring b 4 (S m) 1) by (done || lia).
  replace (S m - Z.to_nat 1)%nat with m by lia. cbn [js_seq].
  replace (instr_op b m =? opcodes.JUMPI) with false by lia. reflexivity.
Qed.

(** A turn of the loop at the JUMPI of a dispatcher entry whose selector
    operand has four bytes at most. *)
Lemma scan_body_dispatch (b : list Z) (j : nat) (s : scan) :
  s.(code) = cursor_at b 4 j -> reached b j -> (3 <= j)%nat ->
  instr_op b j = opcodes.JUMPI ->
  isPush (instr_op b (j - 1)) = true ->
  instr_op b (j - 2) = opcodes.EQ ->
  isPush (instr_op b (j - 3)) = true ->
  (length (immediate b (j - 3)) <= 4)%nat ->
  scan_body s =
    Return (mkScan s.(abi)
              (obj_set
                 (ethers.hexlify (replicate (4 - length (immediate b (j - 3))) 0
                                    ++ immediate b (j - 3)))
                 (parseInt16 (ethers.hexlify (immediate b (j - 1)))) s.(jumps))
              s.(dests) s.(notPayable) s.(lastPush32) (cursor_at b 4 (S j))).
Proof.
  intros Hc Hr H3 Hop Hp He Hp3 Hw.
  assert (Hall : forall i, (i < S j)%nat -> reached b i).
  { intros i Hi. apply (reached_le b i j); [lia|done]. }
  unfold scan_body. rewrite Hc, next_cursor_at by (done || lia). rewrite Hop.
  change (opcodes.JUMPI =? opcodes.PUSH32) with false.
  change (isLog opcodes.JUMPI) with false.
  change (opcodes.JUMPI =? opcodes.JUMPDEST) with false. cbn [andb].
  change (valueAt (cursor_at b 4 (S j)) (-4)) with (valueAt (cursor_at b 4 (S j)) (- Z.of_nat 4)).
  change (valueAt (cursor_at b 4 (S j)) (-2)) with (valueAt (cursor_at b 4 (S j)) (- Z.of_nat 2)).
  rewrite !valueAt_immediate by (done || lia).
  change (-1) with (- (1)). change (-2) with (- (2)).
  change (-3) with (- (3)). change (-4) with (- (4)).
  rewrite !at_ring by (done || lia).
  replace (S j - Z.to_nat 1)%nat with j by lia.
  replace (S j - Z.to_nat 2)%nat with (j - 1)%nat by lia.
  replace (S j - Z.to_nat 3)%nat with (j - 2)%nat by lia.
  replace (S j - Z.to_nat 4)%nat with (j - 3)%nat by lia.
  replace (S j - 4)%nat with (j - 3)%nat by lia.
  replace (S j - 2)%nat with (j - 1)%nat by lia.
  rewrite Hop, He, !isPush_js_num, Hp, Hp3. cbn [js_seq andb]. rewrite !Z.eqb_refl. cbn [andb].
  unfold ethers.zeroPad.
  by replace (4 <? length (immediate b (j - 3)))%nat with false by lia.
Qed.

Lemma scan_loop_turn (fuel : nat) (s s' : scan) :
  hasMore s.(code) = true -> scan_body s = Return s' ->
  scan_loop (S fuel) s = scan_loop fuel s'.
Proof. intros Hm Hb. simpl. by rewrite Hm, Hb. Qed.

Lemma scan_loop_end (fuel : nat) (s : scan) :
  hasMore s.(code) = false -> scan_loop fuel s = Return s.
Proof. intros Hm. destruct fuel; simpl; by rewrite Hm. Qed.

Lemma byte_at_app (pre l post : list Z) (t : nat) (x : Z) :
  l !! t = Some x -> byte_at (pre ++ l ++ post) (Z.of_nat (length pre) + Z.of_nat t) = x.
Proof.
  intros Hl. unfold byte_at.
  assert (Ht : (t < length l)%nat) by (by eapply lookup_lt_Some).
  destruct (js_index_in (pre ++ l ++ post) (Z.of_nat (length pre) + Z.of_nat t))
    as (y & Hy & ->); [rewrite !length_app; lia|].
  replace (Z.to_nat (Z.of_nat (length pre) + Z.of_nat t)) with (length pre + t)%nat in Hy by lia.
  rewrite lookup_app_r, lookup_app_l in Hy by lia.
  replace (length pre + t - length pre)%nat with t in Hy by lia. simpl. congruence.
Qed.

Lemma slice_app (pre l post : list Z) (t w : nat) :
  (t + w <= length l)%nat ->
  js_slice (pre ++ l ++ post) (VNum (Z.of_nat (length pre) + Z.of_nat t))
    (VNum (Z.of_nat (length pre) + Z.of_nat t + Z.of_nat w)) = take w (drop t l).
Proof.
  intros H. rewrite js_slice_take_drop by (rewrite ?length_app; lia).
  replace (Z.to_nat (Z.of_nat (length pre) + Z.of_nat t)) with (length pre + t)%nat by lia.
  rewrite Nat2Z.id, drop_app_ge by lia.
  replace (length pre + t - length pre)%nat with t by lia.
  rewrite drop_app_le by lia. rewrite take_app_le; [done|]. rewrite length_drop. lia.
Qed.

(** The five steps of a dispatcher entry that begins at the start byte of
    step [m0]. *)
Lemma entry_layout (pre post sel : list Z) (d : Z) (m0 : nat) :
  length sel = 4%nat ->
  let b := pre ++ dispatch_entry (sel, d) ++ post in
  instr_start b m0 = Z.of_nat (length pre) ->
  instr_op b m0 = opcodes.DUP1 /\
  instr_op b (S m0) = opcodes.PUSH4 /\
  instr_op b (S (S m0)) = opcodes.EQ /\
  instr_op b (S (S (S m0))) = opcodes.PUSH1 /\
  instr_op b (S (S (S (S m0)))) = opcodes.JUMPI /\
  instr_start b (S (S (S (S (S m0))))) = Z.of_nat (length pre) + 10 /\
  immediate b (S m0) = sel /\
  immediate b (S (S (S m0))) = [d] /\
  reached b (S (S (S (S m0)))).
Proof.
  intros Hsel b H0.
  destruct sel as [|s1 [|s2 [|s3 [|s4 [|s5 rest]]]]]; try discriminate Hsel. clear Hsel.
  set (l := [opcodes.DUP1; opcodes.PUSH4; s1; s2; s3; s4;
             opcodes.EQ; opcodes.PUSH1; d; opcodes.JUMPI]).
  change b with (pre ++ l ++ post) in *. clear b. set (b := pre ++ l ++ post) in *.
  assert (Hb : forall (t : nat) x, l !! t = Some x ->
                 byte_at b (Z.of_nat (length pre) + Z.of_nat t) = x).
  { intros t x. exact (byte_at_app pre l post t x). }
  assert (O0 : instr_op b m0 = opcodes.DUP1).
  { unfold instr_op. rewrite H0, <- (Z.add_0_r (Z.of_nat (length pre))). by apply (Hb 0%nat). }
  assert (S1 : instr_start b (S m0) = Z.of_nat (length pre) + Z.of_nat 1).
  { change (instr_start b (S m0)) with
      (instr_start b m0 + (1 + pushWidth (instr_op b m0))).
    rewrite O0, H0. reflexivity. }
  assert (O1 : instr_op b (S m0) = opcodes.PUSH4).
  { unfold instr_op. rewrite S1. by apply (Hb 1%nat). }
  assert (S2 : instr_start b (S (S m0)) = Z.of_nat (length pre) + Z.of_nat 6).
  { change (instr_start b (S (S m0))) with
      (instr_start b (S m0) + (1 + pushWidth (instr_op b (S m0)))).
    rewrite O1, S1. change (pushWidth opcodes.PUSH4) with 4. lia. }
  assert (O2 : instr_op b (S (S m0)) = opcodes.EQ).
  { unfold instr_op. rewrite S2. by apply (Hb 6%nat). }
  assert (S3 : instr_start b (S (S (S m0))) = Z.of_nat (length pre) + Z.of_nat 7).
  { change (instr_start b (S (S (S m0)))) with
      (instr_start b (S (S m0)) + (1 + pushWidth (instr_op b (S (S m0))))).
    rewrite O2, S2. change (pushWidth opcodes.EQ) with 0. lia. }
  assert (O3 : instr_op b (S (S (S m0))) = opcodes.PUSH1).
  { unfold instr_op. rewrite S3. by apply (Hb 7%nat). }
  assert (S4 : instr_start b (S (S (S (S m0)))) = Z.of_nat (length pre) + Z.of_nat 9).
  { change (instr_start b (S (S (S (S m0))))) with
      (instr_start b (S (S (S m0))) + (1 + pushWidth (instr_op b (S (S (S m0)))))).
    rewrite O3, S3. change (pushWidth opcodes.PUSH1) with 1. lia. }
  assert (O4 : instr_op b (S (S (S (S m0)))) = opcodes.JUMPI).
  { unfold instr_op. rewrite S4. by apply (Hb 9%nat). }
  split_and!; try done.
  - change (instr_start b (S (S (S (S (S m0)))))) with
      (instr_start b (S (S (S (S m0)))) + (1 + pushWidth (instr_op b (S (S (S (S m0))))))).
    rewrite O4, S4. change (pushWidth opcodes.JUMPI) with 0. lia.
  - unfold immediate. rewrite O1, S1. change (pushWidth opcodes.PUSH4) with (Z.of_nat 4).
    replace (Z.of_nat (length pre) + Z.of_nat 1 + 1)
      with (Z.of_nat (length pre) + Z.of_nat 2) by lia.
    unfold b. by rewrite (slice_app pre l post 2 4) by (simpl; lia).
  - unfold immediate. rewrite O3, S3. change (pushWidth opcodes.PUSH1) with (Z.of_nat 1).
    replace (Z.of_nat (length pre) + Z.of_nat 7 + 1)
      with (Z.of_nat (length pre) + Z.of_nat 8) by lia.
    unfold b. by rewrite (slice_app pre l post 8 1) by (simpl; lia).
  - unfold reached. rewrite S4. unfold b. rewrite !length_app. simpl. lia.
Qed.

Lemma table_split (es : list (list Z * Z)) (k : nat) (e : list Z * Z) :
  es !! k = Some e ->
  dispatch_table es =
    dispatch_table (take k es) ++ dispatch_entry e ++ dispatch_table (drop (S k) es).
Proof.
  intros Hk. rewrite <- (take_drop_middle es k e Hk) at 1.
  unfold dispatch_table. rewrite map_app, concat_app. reflexivity.
Qed.

Lemma table_length (es : list (list Z * Z)) :
  Forall entry_ok es -> length (dispatch_table es) = (10 * length es)%nat.
Proof.
  induction 1 as [|e es (He & _) _ IH]; [done|].
  unfold dispatch_table in *. cbn [map concat]. rewrite length_app, IH.
  unfold dispatch_entry. rewrite !length_app, He. simpl. lia.
Qed.

Lemma table_starts (es : list (list Z * Z)) (k : nat) :
  Forall entry_ok es -> (k <= length es)%nat ->
  instr_start (dispatch_table es) (5 * k) = Z.of_nat (10 * k).
Proof.
  intros Hes. induction k as [|k IH]; intros Hk; [done|].
  destruct (lookup_lt_is_Some_2 es k ltac:(lia)) as [[sel d] He].
  assert (Hok : entry_ok (sel, d)) by (by eapply Forall_lookup_1).
  destruct Hok as (Hsel & _). cbn [fst] in Hsel.
  assert (Hpre : length (dispatch_table (take k es)) = (10 * k)%nat).
  { rewrite table_length by (by apply Forall_take). rewrite length_take. lia. }
  rewrite (table_split es k _ He) in IH |- *.
  destruct (entry_layout (dispatch_table (take k es)) (dispatch_table (drop (S k) es))
              sel d (5 * k) Hsel) as (_ & _ & _ & _ & _ & H5 & _).
  { rewrite IH by lia. by rewrite Hpre. }
  replace (5 * S k)%nat with (S (S (S (S (S (5 * k)))))) by lia.
  rewrite H5, Hpre. lia.
Qed.

Lemma scan_loop_plain (b : list Z) (m fuel : nat) (s : scan) :
  s.(code) = cursor_at b 4 m -> reached b m ->
  instr_op b m <> opcodes.PUSH32 -> isLog (instr_op b m) = false ->
  instr_op b m <> opcodes.JUMPDEST -> instr_op b m <> opcodes.JUMPI ->
  scan_loop (S fuel) s =
  scan_loop fuel (mkScan s.(abi) s.(jumps) s.(dests) s.(notPayable) s.(lastPush32)
                    (cursor_at b 4 (S m))).
Proof.
  intros Hc Hr H1 H2 H3 H4. apply scan_loop_turn.
  - rewrite Hc. by apply hasMore_cursor_at.
  - by apply scan_body_plain.
Qed.

Lemma scan_loop_dispatch (b : list Z) (j fuel : nat) (s : scan) :
  s.(code) = cursor_at b 4 j -> reached b j -> (3 <= j)%nat ->
  instr_op b j = opcodes.JUMPI ->
  isPush (instr_op b (j - 1)) = true ->
  instr_op b (j - 2) = opcodes.EQ ->
  isPush (instr_op b (j - 3)) = true ->
  (length (immediate b (j - 3)) <= 4)%nat ->
  scan_loop (S fuel) s =
  scan_loop fuel
    (mkScan s.(abi)
       (obj_set
          (ethers.hexlify (replicate (4 - length (immediate b (j - 3))) 0
                             ++ immediate b (j - 3)))
          (parseInt16 (ethers.hexlify (immediate b (j - 1)))) s.(jumps))
       s.(dests) s.(notPayable) s.(lastPush32) (cursor_at b 4 (S j))).
Proof.
  intros Hc Hr H3 Hop Hp He Hp3 Hw. apply scan_loop_turn.
  - rewrite Hc. by apply hasMore_cursor_at.
  - by apply scan_body_dispatch.
Qed.

(** The loop on a dispatch table, from the start of entry [k] on. *)
Lemma table_loop (es : list (list Z * Z)) :
  Forall entry_ok es ->
  forall (r k fuel : nat) (J : list (string * jsval)),
    (k + r = length es)%nat -> (5 * r <= fuel)%nat ->
    scan_loop fuel (mkScan [] J ∅ ∅ [] (cursor_at (dispatch_table es) 4 (5 * k))) =
    Return (mkScan []
              (foldl (fun o e => obj_set (ethers.hexlify e.1)
                                   (parseInt16 (ethers.hexlify [e.2])) o) J (drop k es))
              ∅ ∅ [] (cursor_at (dispatch_table es) 4 (5 * length es))).
Proof.
  intros Hes. induction r as [|r IH]; intros k fuel J Hk Hfuel.
  - assert (k = length es) as -> by lia. rewrite drop_all. cbn [foldl].
    apply scan_loop_end. cbn [code].
    destruct (hasMore _) eqn:Hm; [|done]. apply hasMore_cursor_at in Hm.
    unfold reached in Hm. rewrite table_starts, table_length in Hm by done. lia.
  - destruct (lookup_lt_is_Some_2 es k ltac:(lia)) as [[sel d] He].
    assert (Hok : entry_ok (sel, d)) by (by eapply Forall_lookup_1).
    destruct Hok as (Hsel & _). cbn [fst] in Hsel.
    assert (Hpre : length (dispatch_table (take k es)) = (10 * k)%nat).
    { rewrite table_length by (by apply Forall_take). rewrite length_take. lia. }
    pose proof (table_starts es k Hes ltac:(lia)) as Hstart.
    set (b := dispatch_table es) in *.
    destruct (entry_layout (dispatch_table (take k es)) (dispatch_table (drop (S k) es))
                sel d (5 * k) Hsel) as (O0 & O1 & O2 & O3 & O4 & _ & I1 & I3 & R4).
    { rewrite <- (table_split es k _ He). fold b. by rewrite Hstart, Hpre. }
    rewrite <- (table_split es k _ He) in O0, O1, O2, O3, O4, I1, I3, R4.
    fold b in O0, O1, O2, O3, O4, I1, I3, R4.
    set (m0 := (5 * k)%nat) in *.
    assert (Hr : forall i, (i <= S (S (S (S m0))))%nat -> reached b i).
    { intros i Hi. by apply (reached_le b i (S (S (S (S m0))))). }
    do 5 (destruct fuel as [|fuel]; [lia|]).
    rewrite (scan_loop_plain b m0); cbn [abi jumps dests notPayable lastPush32 code];
      [|done|apply Hr; lia|rewrite O0; discriminate|by rewrite O0
       |rewrite O0; discriminate|rewrite O0; discriminate].
    rewrite (scan_loop_plain b (S m0)); cbn [abi jumps dests notPayable lastPush32 code];
      [|done|apply Hr; lia|rewrite O1; discriminate|by rewrite O1
       |rewrite O1; discriminate|rewrite O1; discriminate].
    rewrite (scan_loop_plain b (S (S m0))); cbn [abi jumps dests notPayable lastPush32 code];
      [|done|apply Hr; lia|rewrite O2; discriminate|by rewrite O2
       |rewrite O2; discriminate|rewrite O2; discriminate].
    rewrite (scan_loop_plain b (S (S (S m0)))); cbn [abi jumps dests notPayable lastPush32 code];
      [|done|apply Hr; lia|rewrite O3; discriminate|by rewrite O3
       |rewrite O3; discriminate|rewrite O3; discriminate].
    assert (E1 : (S (S (S (S m0))) - 1 = S (S (S m0)))%nat) by lia.
    assert (E2 : (S (S (S (S m0))) - 2 = S (S m0))%nat) by lia.
    assert (E3 : (S (S (S (S m0))) - 3 = S m0)%nat) by lia.
    rewrite (scan_loop_dispatch b (S (S (S (S m0)))));
      cbn [abi jumps dests notPayable lastPush32 code];
      [|done|done|lia|done|by rewrite E1, O3|by rewrite E2, O2|by rewrite E3, O1
       |rewrite E3, I1; lia].
    rewrite E1, E3, I1, I3, Hsel. cbn [replicate app Nat.sub].
    replace (S (S (S (S (S m0))))) with (5 * S k)%nat by lia.
    rewrite (IH (S k) fuel) by lia.
    by rewrite (drop_S es (sel, d) k He).
Qed.

Lemma hexlify_inj (a a' : list Z) :
  Forall (fun z => 0 <= z < 256) a -> Forall (fun z => 0 <= z < 256) a' ->
  ethers.hexlify a = ethers.hexlify a' -> a = a'.
Proof.
  intros Ha Ha' H. apply arrayify_hexlify in Ha, Ha'. rewrite H in Ha. congruence.
Qed.

Lemma jumps_of_keys (es : list (list Z * Z)) (J : list (string * jsval)) :
  NoDup (map fst J ++ map (fun e => ethers.hexlify e.1) es) ->
  map fst (foldl (fun o e => obj_set (ethers.hexlify e.1)
                               (parseInt16 (ethers.hexlify [e.2])) o) J es)
  = map fst J ++ map (fun e => ethers.hexlify e.1) es.
Proof.
  revert J. induction es as [|e es IH]; intros J Hnd; [by rewrite app_nil_r|].
  cbn [foldl map]. cbn [map] in Hnd.
  assert (Hk : ethers.hexlify e.1 ∉ map fst J).
  { apply NoDup_app in Hnd as (_ & Hdis & _). intros Hin. apply (Hdis _ Hin). by left. }
  assert (Hkeys : map fst (obj_set (ethers.hexlify e.1) (parseInt16 (ethers.hexlify [e.2])) J)
                  = map fst J ++ [ethers.hexlify e.1]).
  { rewrite obj_set_keys. by rewrite decide_False. }
  rewrite IH; rewrite Hkeys, <- app_assoc; [done|]. exact Hnd.
Qed.

Lemma table_bytes (es : list (list Z * Z)) :
  Forall entry_ok es -> Forall (fun z => 0 <= z < 256) (dispatch_table es).
Proof.
  induction 1 as [|e es (_ & Hsel & Hd) _ IH]; [constructor|].
  unfold dispatch_table. cbn [map concat]. apply Forall_app. split; [|exact IH].
  unfold dispatch_entry. apply Forall_app. split.
  - repeat constructor; unfold opcodes.DUP1, opcodes.PUSH4; lia.
  - apply Forall_app. split; [done|].
    repeat constructor; unfold opcodes.EQ, opcodes.PUSH1, opcodes.JUMPI; lia.
Qed.

(** A dispatch table, any number of entries
    [DUP1 PUSH4 <selector> EQ PUSH1 <dest> JUMPI] with pairwise distinct
    selectors, is recovered whole: one function for every entry, in the order
    of the table, with the selector of the entry, payable for want of a
    guarded JUMPDEST, and nothing else. *)
Theorem dispatch_table_recovered (es : list (list Z * Z)) :
  Forall entry_ok es -> NoDup (map fst es) ->
  abiFromBytecode (ethers.hexlify (dispatch_table es)) =
  Return (map (fun e => ABIFunction (ethers.hexlify e.1) true) es).
Proof.
  intros Hes Hnd. rewrite abiFromBytecode_hexlify by (by apply table_bytes).
  unfold abiFromBytes, scan_all. cbn [bytecode cursor_on].
  change (scan_start (cursor_on (dispatch_table es) 4))
    with (mkScan [] [] ∅ ∅ [] (cursor_at (dispatch_table es) 4 (5 * 0))).
  rewrite (table_loop es Hes (length es) 0) by (rewrite ?table_length by done; lia).
  rewrite drop_0. unfold abi_of_scan, functions_of. cbn [abi jumps notPayable app].
  rewrite (jumps_of_keys es []).
  - cbn [map app]. f_equal. rewrite map_map. apply map_ext. intros e. f_equal.
    destruct (obj_get _ _) as [n| |]; simpl; [by rewrite lookup_empty|done|done].
  - cbn [map app].
    replace (map (fun e => ethers.hexlify e.1) es) with (ethers.hexlify <$> (map fst es))
      by (by rewrite <- list_fmap_compose).
    apply NoDup_fmap_2_strong; [|done].
    intros a a' Ha Ha'. apply list_elem_of_fmap in Ha as (e & -> & He).
    apply list_elem_of_fmap in Ha' as (e' & -> & He').
    apply hexlify_inj.
    + by destruct (proj1 (Forall_forall _ _) Hes e He) as (_ & ? & _).
    + by destruct (proj1 (Forall_forall _ _) Hes e' He') as (_ & ? & _).
Qed.

Lemma dispatch_table_recovered_witness :
  abiFromBytecode
    (ethers.hexlify (dispatch_table [([0x2e; 0x64; 0xce; 0xc1], 0x37);
                                     ([0x60; 0x57; 0x36; 0x1d], 0x59)])) =
  Return (map (fun e => ABIFunction (ethers.hexlify e.1) true)
            [([0x2e; 0x64; 0xce; 0xc1], 0x37); ([0x60; 0x57; 0x36; 0x1d], 0x59)]).
Proof.
  apply (dispatch_table_recovered [([0x2e; 0x64; 0xce; 0xc1], 0x37);
                                   ([0x60; 0x57; 0x36; 0x1d], 0x59)]).
  - assert (Hok : forall a1 a2 a3 a4 d,
                0 <= a1 < 256 -> 0 <= a2 < 256 -> 0 <= a3 < 256 -> 0 <= a4 < 256 ->
                0 <= d < 256 -> entry_ok ([a1; a2; a3; a4], d)).
    { intros. unfold entry_ok. cbn [fst snd]. split; [done|]. split; [|done].
      repeat (constructor; [done|]). constructor. }
    repeat (constructor; [apply Hok; lia|]). constructor.
  - cbn [map fst]. apply NoDup_cons. split; [|apply NoDup_singleton].
    intros H. apply list_elem_of_singleton in H. discriminate H.
Defined.

(** ** The destination of a dispatcher entry and the payable flag *)

Lemma hex_digit_range (c : ascii) (n : Z) : ethers.hex_digit c = Some n -> 0 <= n < 16.
Proof.
  unfold ethers.hex_digit.
  repeat match goal with |- context [if ?c then _ else _] => destruct c eqn:? end;
    intros [= <-]; lia.
Qed.

Lemma hex_pairs_bytes (hex : string) : Forall (fun z => 0 <= z < 256) (ethers.hex_pairs hex).
Proof.
  assert (H : forall n (s : string), (String.length s <= n)%nat ->
                Forall (fun z => 0 <= z < 256) (ethers.hex_pairs s)).
  { induction n as [|n IH]; intros s Hs.
    - destruct s; [constructor|simpl in Hs; lia].
    - destruct s as [|h [|l r]]; [constructor|constructor|]. cbn [ethers.hex_pairs].
      assert (Hr : Forall (fun z => 0 <= z < 256) (ethers.hex_pairs r))
        by (apply IH; simpl in Hs; lia).
      destruct (ethers.hex_digit h) as [x|] eqn:Hh; [|done].
      destruct (ethers.hex_digit l) as [y|] eqn:Hl; [|done].
      apply hex_digit_range in Hh, Hl. constructor; [lia|done]. }
  by apply (H (String.length hex)).
Qed.

(** The constructor hands the cursor bytes, numbers from 0 to 255. *)
Lemma arrayify_bytes (input : string) (b : list Z) :
  ethers.arrayify input = Return b -> Forall (fun z => 0 <= z < 256) b.
Proof.
  unfold ethers.arrayify. destruct (ethers.isHexString _); [|discriminate].
  destruct (Nat.odd _); [discriminate|]. intros [= <-]. apply hex_pairs_bytes.
Qed.

Lemma parse_hex_run_bytes (v : list Z) (acc : option Z) :
  Forall (fun z => 0 <= z < 256) v ->
  parse_hex_run acc (ethers.hexlify_bytes v) =
  match v with
  | [] => acc
  | _ => Some (foldl (fun a x => 256 * a + x) (default 0 acc) v)
  end.
Proof.
  intros Hv. revert acc. induction Hv as [|x v Hx _ IH]; intros acc; [done|].
  destruct (byte_nibbles x Hx) as (Hh & Hl & E).
  cbn [ethers.hexlify_bytes parse_hex_run]. rewrite !hex_digit_char by done.
  cbn [default]. rewrite IH. cbn [foldl default].
  generalize (default 0 acc). intros d. unfold id.
  assert (Ed : 16 * (16 * d + Z.shiftr (Z.land x 240) 4) + Z.land x 15 = 256 * d + x) by lia.
  rewrite Ed. by destruct v.
Qed.

(** [parseInt(hexlify(v), 16)] of a non-empty byte string is its big-endian
    integer. *)
Lemma parseInt16_hexlify (v : list Z) :
  Forall (fun z => 0 <= z < 256) v -> v <> [] ->
  parseInt16 (ethers.hexlify v) = VNum (big_endian v).
Proof.
  intros Hv Hne. unfold parseInt16, ethers.hexlify.
  rewrite parse_hex_run_bytes by done. by destruct v.
Qed.

Lemma immediate_bytes (b : list Z) (i : nat) :
  Forall (fun z => 0 <= z < 256) b -> Forall (fun z => 0 <= z < 256) (immediate b i).
Proof. intros Hb. unfold immediate, js_slice. by apply Forall_take, Forall_drop. Qed.

Lemma obj_get_elem (k : string) (v : jsval) (o : list (string * jsval)) :
  NoDup (map fst o) -> (k, v) ∈ o -> obj_get k o = v.
Proof.
  induction o as [|[k0 v0] o IH]; intros Hnd Hin; [by apply not_elem_of_nil in Hin|].
  cbn [map fst] in Hnd. apply NoDup_cons in Hnd as [Hk0 Hnd]. simpl.
  apply elem_of_cons in Hin as [[= -> ->]|Hin]; [by rewrite String.eqb_refl|].
  destruct (String.eqb k k0) eqn:E; [|by apply IH].
  apply String.eqb_eq in E as ->. exfalso. apply Hk0.
  apply list_elem_of_fmap. by exists (k0, v).
Qed.

Lemma obj_set_here (k : string) (v : jsval) (o : list (string * jsval)) :
  (k, v) ∈ obj_set k v o.
Proof.
  induction o as [|[k0 v0] o IH]; simpl; [by left|].
  destruct (String.eqb k k0); [by left|by right].
Qed.

Lemma padded_selector_fun (imm : list Z) (sel sel' : string) :
  padded_selector imm sel -> padded_selector imm sel' -> sel = sel'.
Proof. by intros [_ ->] [_ ->]. Qed.

(** A turn of the loop keeps every entry of [jumps] the latest one written
    for its selector. *)
Lemma scan_body_latest (b : list Z) (m : nat) (s s' : scan) :
  (forall i, (i < m)%nat -> reached b i) -> s.(code) = cursor_at b 4 m ->
  hasMore s.(code) = true -> NoDup (map fst s.(jumps)) ->
  (forall sel d, (sel, d) ∈ s.(jumps) -> exists j, latest_dispatch b m sel d j) ->
  scan_body s = Return s' ->
  forall sel d, (sel, d) ∈ s'.(jumps) -> exists j, latest_dispatch b (S m) sel d j.
Proof.
  intros Hr Hc Hm Hnd IH Hb.
  rewrite Hc in Hm. apply hasMore_cursor_at in Hm.
  assert (Hr' : forall i, (i < S m)%nat -> reached b i).
  { intros i Hi. apply (reached_le b i m); [lia|done]. }
  assert (Hkeep : (forall d', ~ dispatch_at b m d') ->
            forall sel d, (sel, d) ∈ jumps s -> exists j, latest_dispatch b (S m) sel d j).
  { intros Hno sel d He. destruct (IH sel d He) as (j & Hjm & Hd & Hp & Hlast).
    exists j. split; [lia|]. split; [done|]. split; [done|].
    intros j' d' Hj' Hd'. destruct (decide (j' = m)) as [->|Hne]; [by destruct (Hno d')|].
    apply (Hlast j' d'); [lia|done]. }
  assert (Hop : instr_op b m <> opcodes.JUMPI -> forall d', ~ dispatch_at b m d').
  { intros Hne d' (_ & _ & Hj & _). done. }
  unfold scan_body in Hb. rewrite Hc, next_cursor_at in Hb by (done || lia).
  destruct (instr_op b m =? opcodes.PUSH32) eqn:E1.
  { injection Hb as <-. cbn [jumps]. apply Hkeep, Hop.
    unfold opcodes.PUSH32, opcodes.JUMPI in *. lia. }
  destruct (isLog (instr_op b m) && (0 <? Z.of_nat (length (lastPush32 s)))) eqn:E2.
  { injection Hb as <-. cbn [jumps]. apply Hkeep, Hop.
    apply andb_true_iff in E2 as [Hlog _]. intros E. rewrite E in Hlog. discriminate. }
  destruct (instr_op b m =? opcodes.JUMPDEST) eqn:E3.
  { injection Hb as <-. cbn [jumps]. apply Hkeep, Hop.
    unfold opcodes.JUMPDEST, opcodes.JUMPI in *. lia. }
  destruct (js_seq (at_ (cursor_at b 4 (S m)) (-1)) (VNum opcodes.JUMPI) &&
            isPush_js (at_ (cursor_at b 4 (S m)) (-2)) &&
            js_seq (at_ (cursor_at b 4 (S m)) (-3)) (VNum opcodes.EQ) &&
            isPush_js (at_ (cursor_at b 4 (S m)) (-4))) eqn:E4.
  2:{ injection Hb as <-. cbn [jumps]. apply Hkeep. intros d' Hd'.
      rewrite (dispatch_rule4 b m d' Hr' Hd') in E4. discriminate. }
  destruct (ethers.zeroPad (valueAt (cursor_at b 4 (S m)) (-4)) 4) as [v| |] eqn:Z;
    try discriminate.
  injection Hb as <-. cbn [jumps].
  apply zeroPad_length in Z as (_ & Hle & ->).
  set (imm := valueAt (cursor_at b 4 (S m)) (-4)) in *.
  set (selm := ethers.hexlify (replicate (4 - length imm) 0 ++ imm)).
  set (dm := parseInt16 (ethers.hexlify (valueAt (cursor_at b 4 (S m)) (-2)))).
  assert (Hpm : padded_selector imm selm) by (by split).
  intros sel d He. destruct (decide (sel = selm)) as [->|Hne].
  - assert (d = dm) as ->.
    { rewrite <- (obj_get_elem selm d (obj_set selm dm (jumps s))); [|by apply obj_set_NoDup|done].
      apply obj_get_elem; [by apply obj_set_NoDup|apply obj_set_here]. }
    exists m. split; [lia|]. split; [by apply rule4_dispatch|]. split; [done|].
    intros j' d' Hj'. lia.
  - apply obj_set_elem in He as [[= -> ->]|He]; [done|].
    destruct (IH sel d He) as (j & Hjm & Hd & Hp & Hlast).
    exists j. split; [lia|]. split; [done|]. split; [done|].
    intros j' d' Hj' Hd'. destruct (decide (j' = m)) as [->|Hnm].
    + intros Hp'. apply Hne. by apply (padded_selector_fun imm).
    + apply (Hlast j' d'); [lia|done].
Qed.

Lemma scanned_latest (b : list Z) (s : scan) :
  scanned b s ->
  exists m, (forall i, (i < m)%nat -> reached b i) /\ s.(code) = cursor_at b 4 m /\
            forall sel d, (sel, d) ∈ s.(jumps) -> exists j, latest_dispatch b m sel d j.
Proof.
  induction 1 as [|s s' Hs (m & Hr & Hc & IH) Hm Hb].
  - exists 0%nat. split; [lia|]. split; [done|].
    intros sel d He. by apply not_elem_of_nil in He.
  - destruct (scanned_trace _ _ Hs) as (m1 & _ & Hc1 & Ht).
    exists (S m). split; [|split].
    + intros i Hi. apply (reached_le b i m); [lia|].
      rewrite Hc in Hm. by apply hasMore_cursor_at in Hm.
    + rewrite (scan_body_code _ _ Hb), Hc, next_cursor_at; [done|lia|].
      rewrite Hc in Hm. by apply hasMore_cursor_at in Hm.
    + by apply (scan_body_latest b m s s' Hr Hc Hm (tr_keys _ _ _ Ht) IH Hb).
Qed.

(** What the payable flag of a function says of the bytes. The entry with
    selector [sel] comes from the last decoded EQ, PUSHn, JUMPI whose selector
    is [sel]: no later match of the rule has that selector. The function is
    non-payable exactly when the operand of that PUSHn, read as a big-endian
    integer, is the start byte of a decoded JUMPDEST, other than the first
    step, followed by CALLVALUE DUP1 ISZERO. *)
Theorem payable_flag_semantics (input : string) (out : ABI) (sel : string) (payable : bool) :
  abiFromBytecode input = Return out ->
  ABIFunction sel payable ∈ out ->
  exists b j,
    ethers.arrayify input = Return b /\
    reached b j /\ (2 <= j)%nat /\ instr_op b j = opcodes.JUMPI /\
    isPush (instr_op b (j - 1)) = true /\
    instr_op b (j - 2) = opcodes.EQ /\
    ((3 <= j)%nat ->
       isPush (instr_op b (j - 3)) = true /\ padded_selector (immediate b (j - 3)) sel) /\
    (j = 2%nat -> sel = "0x00000000"%string) /\
    (forall j', (j < j')%nat -> reached b j' ->
       instr_op b j' = opcodes.JUMPI -> isPush (instr_op b (j' - 1)) = true ->
       instr_op b (j' - 2) = opcodes.EQ -> isPush (instr_op b (j' - 3)) = true ->
       ~ padded_selector (immediate b (j' - 3)) sel) /\
    Z.of_nat (length (immediate b (j - 1))) = pushWidth (instr_op b (j - 1)) /\
    (payable = false <->
     exists i, i <> 0%nat /\ reached b i /\
       instr_start b i = big_endian (immediate b (j - 1)) /\
       instr_op b i = opcodes.JUMPDEST /\
       js_index b (VNum (instr_start b i + 1)) = VNum opcodes.CALLVALUE /\
       js_index b (VNum (instr_start b i + 2)) = VNum opcodes.DUP1 /\
       js_index b (VNum (instr_start b i + 3)) = VNum opcodes.ISZERO).
Proof.
  intros Hout Hin.
  destruct (abiFromBytecode_return _ _ Hout) as (b & s & Hb & Hs & Hend & ->).
  pose proof (scanned_inv _ _ Hs) as Hi.
  destruct (scanned_trace _ _ Hs) as (m & Hall & Hc & Ht).
  destruct (scanned_latest _ _ Hs) as (m' & _ & Hc' & Hlatest).
  rewrite Hc in Hc'. apply cursor_at_inj in Hc' as <-.
  assert (Hend' : forall i, reached b i -> (i < m)%nat).
  { intros i Hri. destruct (Nat.lt_ge_cases i m) as [?|Hge]; [done|].
    apply (reached_le b m i Hge) in Hri. apply hasMore_cursor_at with (K := 4) in Hri.
    rewrite <- Hc, Hend in Hri. discriminate. }
  apply elem_of_app in Hin as [Hin|Hin].
  { destruct (inv_abi _ _ Hi _ Hin) as (t & _ & [=]). }
  apply functions_of_elem in Hin as (sel' & d & Hj & [= -> ->]).
  rewrite (obj_get_elem _ _ _ (tr_keys _ _ _ Ht) Hj).
  destruct (Hlatest _ _ Hj) as (j & Hjm & Hd & Hsel & Hlast).
  pose proof Hd as (Hrj & H2 & Hop & Hp & He & H3 & ->).
  assert (Hlen : Z.of_nat (length (immediate b (j - 1))) = pushWidth (instr_op b (j - 1))).
  { apply immediate_length. by replace (S (j - 1)) with j by lia. }
  assert (Hd' : parseInt16 (ethers.hexlify (immediate b (j - 1)))
                = VNum (big_endian (immediate b (j - 1)))).
  { apply parseInt16_hexlify; [apply immediate_bytes; by eapply arrayify_bytes|].
    destruct (opcode_table_width (instr_op b (j - 1))) as [Hw _].
    specialize (Hw Hp). intros E. rewrite E in Hlen. simpl in Hlen. lia. }
  assert (Hval : forall k, (3 <= k)%nat -> reached b k ->
            valueAt (cursor_at b 4 (S k)) (-4) = immediate b (k - 3)).
  { intros k Hk Hrk. change (-4) with (- Z.of_nat 4). rewrite valueAt_immediate.
    - by replace (S k - 4)%nat with (k - 3)%nat by lia.
    - intros i Hi'. apply (reached_le b i k); [lia|done].
    - lia. }
  rewrite Hd'. exists b, j.
  split; [done|]. split; [done|]. split; [done|]. split; [done|]. split; [done|].
  split; [done|]. split; [|split; [|split; [|split; [done|split]]]].
  - intros Hj3. split; [by apply H3|]. by rewrite <- Hval.
  - intros ->. change (-4) with (- (4)) in Hsel. rewrite valueAt_short in Hsel by (simpl; lia).
    by destruct Hsel as [_ ->].
  - intros j' Hjj' Hrj' Hop' Hp' He' Hp3' Hsel'.
    apply (Hlast j' (parseInt16 (ethers.hexlify (immediate b (j' - 1))))).
    + split; [done|]. by apply Hend'.
    + split; [done|]. split; [lia|]. by split_and!.
    + by rewrite Hval by (done || lia).
  - intros Hpay. unfold num_get in Hpay.
    destruct (notPayable s !! big_endian (immediate b (j - 1))) as [v|] eqn:N; [|discriminate].
    destruct (inv_notPayable _ _ Hi _ _ N) as (Hdk & G1 & G2 & G3).
    destruct (inv_dests _ _ Hi _ _ Hdk) as (i & Hri & Hk & -> & Hopi).
    exists i. rewrite <- Hk. split_and!; try done. intros ->. simpl in Hpay. discriminate.
  - intros (i & Hne & Hri & Hk & Hopi & G1 & G2 & G3).
    unfold num_get. rewrite <- Hk.
    rewrite (inv_guards _ _ Hi m i Hc (Hend' i Hri) Hopi G1 G2 G3). simpl. lia.
Qed.

Lemma payable_flag_semantics_witness :
  exists b j,
    ethers.arrayify "0x005b3480158063aabbccdd146000578063aabbccdd14600157" = Return b /\
    reached b j /\ (2 <= j)%nat /\ instr_op b j = opcodes.JUMPI /\
    isPush (instr_op b (j - 1)) = true /\
    instr_op b (j - 2) = opcodes.EQ /\
    ((3 <= j)%nat ->
       isPush (instr_op b (j - 3)) = true /\
       padded_selector (immediate b (j - 3)) "0xaabbccdd") /\
    (j = 2%nat -> "0xaabbccdd"%string = "0x00000000"%string) /\
    (forall j', (j < j')%nat -> reached b j' ->
       instr_op b j' = opcodes.JUMPI -> isPush (instr_op b (j' - 1)) = true ->
       instr_op b (j' - 2) = opcodes.EQ -> isPush (instr_op b (j' - 3)) = true ->
       ~ padded_selector (immediate b (j' - 3)) "0xaabbccdd") /\
    Z.of_nat (length (immediate b (j - 1))) = pushWidth (instr_op b (j - 1)) /\
    (false = false <->
     exists i, i <> 0%nat /\ reached b i /\
       instr_start b i = big_endian (immediate b (j - 1)) /\
       instr_op b i = opcodes.JUMPDEST /\
       js_index b (VNum (instr_start b i + 1)) = VNum opcodes.CALLVALUE /\
       js_index b (VNum (instr_start b i + 2)) = VNum opcodes.DUP1 /\
       js_index b (VNum (instr_start b i + 3)) = VNum opcodes.ISZERO).
Proof.
  apply (payable_flag_semantics "0x005b3480158063aabbccdd146000578063aabbccdd14600157"
           [ABIFunction "0xaabbccdd" false] "0xaabbccdd" false).
  - vm_compute. reflexivity.
  - apply list_elem_of_here.
Defined.
